(** * Trezor PIN entry UI: a shallow embedding of [GetPIN] (pin.go)

    The Go function [GetPIN] acquires the terminal, then loops: paint a
    frame, block for one input event, apply one transition.  The embedding
    keeps the three local variables of the loop as a record, the body of
    the "Update state" block as a step function on that record, the
    "Render" block as the list of terminal calls it issues, and the loop
    itself as a recursion over a script of input events. *)

From Stdlib Require Import ZArith List Bool Lia.
From Stdlib Require Import Strings.Ascii Strings.String.
Import ListNotations.

Local Open Scope Z_scope.

(** ** Go primitives used by pin.go *)

Module Go.

(** [int] is a 64-bit signed integer; arithmetic wraps around. *)
Definition int := Z.

Definition wrap_int (z : Z) : int :=
  (z + 2 ^ 63) mod 2 ^ 64 - 2 ^ 63.

Definition int_add (a b : int) : int := wrap_int (a + b).
Definition incr (a : int) : int := wrap_int (a + 1).
Definition decr (a : int) : int := wrap_int (a - 1).

(** A [rune] is a Unicode code point (an [int32]). *)
Definition rune := Z.

(** A Go [string] is a sequence of bytes; [string] of the standard
    library is exactly that, and a literal such as ["PIN: "] denotes the
    UTF-8 bytes of the source text, as in Go. *)
Definition byte_val (a : ascii) : Z := Z.of_N (N_of_ascii a).
Definition byte_of (z : Z) : ascii := ascii_of_N (Z.to_N z).

(** [len(s)] *)
Definition len (s : string) : int := Z.of_nat (String.length s).

(** [s[:hi]], for [0 <= hi <= len(s)]. *)
Definition slice_to (s : string) (hi : int) : string :=
  substring 0 (Z.to_nat hi) s.

(** [l[i]] on a slice: a run-time panic ([None]) when [i] is out of
    range. *)
Definition index {A : Type} (l : list A) (i : int) : option A :=
  if (i <? 0) || (Z.of_nat (List.length l) <=? i) then None
  else nth_error l (Z.to_nat i).

(** The constants of package unicode/utf8. *)
Definition RuneError : rune := 0xFFFD.
Definition RuneSelf : Z := 0x80.
Definition MaxRune : rune := 0x10FFFF.
Definition surrogateMin : rune := 0xD800.
Definition surrogateMax : rune := 0xDFFF.
Definition tx : Z := 0x80.
Definition t2 : Z := 0xC0.
Definition t3 : Z := 0xE0.
Definition t4 : Z := 0xF0.
Definition t5 : Z := 0xF8.
Definition maskx : Z := 0x3F.
Definition mask2 : Z := 0x1F.
Definition mask3 : Z := 0x0F.
Definition mask4 : Z := 0x07.
Definition rune1Max : rune := 0x7F.
Definition rune2Max : rune := 0x7FF.
Definition rune3Max : rune := 0xFFFF.
Definition locb : Z := 0x80.
Definition hicb : Z := 0xBF.

Definition is_cont (b : Z) : bool := (locb <=? b) && (b <=? hicb).

(** The decoding step of a [range] loop over a string whose first byte is
    [a0] and whose other bytes are [s0]: the rune and the number of bytes
    it takes.  A byte below [RuneSelf] is its own rune, a well-formed
    multi-byte sequence is decoded, and anything else yields [RuneError]
    and a width of one byte. *)
Definition decoderune (a0 : ascii) (s0 : string) : rune * nat :=
  let b0 := byte_val a0 in
  let invalid := (RuneError, 1%nat) in
  if b0 <? RuneSelf then (b0, 1%nat)
  else if (t2 <=? b0) && (b0 <? t3) then
    match s0 with
    | String a1 _ =>
      let b1 := byte_val a1 in
      let r := Z.lor (Z.shiftl (Z.land b0 mask2) 6) (Z.land b1 maskx) in
      if is_cont b1 && (rune1Max <? r) then (r, 2%nat) else invalid
    | _ => invalid
    end
  else if (t3 <=? b0) && (b0 <? t4) then
    match s0 with
    | String a1 (String a2 _) =>
      let b1 := byte_val a1 in
      let b2 := byte_val a2 in
      let r := Z.lor (Z.lor (Z.shiftl (Z.land b0 mask3) 12)
                            (Z.shiftl (Z.land b1 maskx) 6))
                     (Z.land b2 maskx) in
      if is_cont b1 && is_cont b2 && (rune2Max <? r)
         && negb ((surrogateMin <=? r) && (r <=? surrogateMax))
      then (r, 3%nat) else invalid
    | _ => invalid
    end
  else if (t4 <=? b0) && (b0 <? t5) then
    match s0 with
    | String a1 (String a2 (String a3 _)) =>
      let b1 := byte_val a1 in
      let b2 := byte_val a2 in
      let b3 := byte_val a3 in
      let r := Z.lor (Z.lor (Z.lor (Z.shiftl (Z.land b0 mask4) 18)
                                   (Z.shiftl (Z.land b1 maskx) 12))
                            (Z.shiftl (Z.land b2 maskx) 6))
                     (Z.land b3 maskx) in
      if is_cont b1 && is_cont b2 && is_cont b3
         && (rune3Max <? r) && (r <=? MaxRune)
      then (r, 4%nat) else invalid
    | _ => invalid
    end
  else invalid.

(** The runes that [for _, r := range s] yields, in order. *)
Fixpoint range_runes (s : string) : list rune :=
  match s with
  | EmptyString => []
  | String a0 s0 =>
    let (r, size) := decoderune a0 s0 in
    r :: match size, s0 with
         | 2%nat, String _ s1 => range_runes s1
         | 3%nat, String _ (String _ s2) => range_runes s2
         | 4%nat, String _ (String _ (String _ s3)) => range_runes s3
         | _, _ => range_runes s0
         end
  end.

(** [utf8.EncodeRune]: the UTF-8 bytes of a rune; a surrogate or a value
    above [MaxRune] is written as [RuneError]. *)
Definition encode3 (r : rune) : string :=
  String (byte_of (Z.lor t3 (Z.shiftr r 12)))
 (String (byte_of (Z.lor tx (Z.land (Z.shiftr r 6) maskx)))
 (String (byte_of (Z.lor tx (Z.land r maskx))) EmptyString)).

Definition EncodeRune (r : rune) : string :=
  if (0 <=? r) && (r <=? rune1Max) then String (byte_of r) EmptyString
  else if (0 <=? r) && (r <=? rune2Max) then
    String (byte_of (Z.lor t2 (Z.shiftr r 6)))
   (String (byte_of (Z.lor tx (Z.land r maskx))) EmptyString)
  else if (r <? 0) || (MaxRune <? r)
          || ((surrogateMin <=? r) && (r <=? surrogateMax))
  then encode3 RuneError
  else if r <=? rune3Max then encode3 r
  else
    String (byte_of (Z.lor t4 (Z.shiftr r 18)))
   (String (byte_of (Z.lor tx (Z.land (Z.shiftr r 12) maskx)))
   (String (byte_of (Z.lor tx (Z.land (Z.shiftr r 6) maskx)))
   (String (byte_of (Z.lor tx (Z.land r maskx))) EmptyString))).

(** [strings.Map(mapping, s)]: every rune of [s] replaced by its image,
    a negative image being dropped. *)
Definition strings_Map (mapping : rune -> rune) (s : string) : string :=
  List.fold_right String.append EmptyString
    (List.map (fun c => let r := mapping c in
                        if r <? 0 then EmptyString else EncodeRune r)
              (range_runes s)).

End Go.

(** ** The part of the termbox package that pin.go calls *)

Module termbox.

Definition KeyCode := Z.
Definition Attribute := Z.

Inductive EventType : Type :=
| EventKey | EventResize | EventMouse | EventError
| EventInterrupt | EventRaw | EventNone.

Definition EventType_eqb (a b : EventType) : bool :=
  match a, b with
  | EventKey, EventKey | EventResize, EventResize
  | EventMouse, EventMouse | EventError, EventError
  | EventInterrupt, EventInterrupt | EventRaw, EventRaw
  | EventNone, EventNone => true
  | _, _ => false
  end.

(** The fields of [termbox.Event] that [GetPIN] reads. *)
Record Event : Type := mkEvent {
  Type' : EventType;
  Key : KeyCode;
  Ch : Go.rune
}.

(** Key codes, with the values the package declares. *)
Definition KeyArrowUp : KeyCode := 0xFFFF - 18.
Definition KeyArrowDown : KeyCode := 0xFFFF - 19.
Definition KeyArrowLeft : KeyCode := 0xFFFF - 20.
Definition KeyArrowRight : KeyCode := 0xFFFF - 21.
Definition KeyCtrlC : KeyCode := 0x03.
Definition KeyBackspace : KeyCode := 0x08.
Definition KeyEnter : KeyCode := 0x0D.
Definition KeySpace : KeyCode := 0x20.
Definition KeyBackspace2 : KeyCode := 0x7F.

Definition ColorDefault : Attribute := 0.

(** One call into the package.  [PollEvent] carries the event it
    returned. *)
Inductive Call : Type :=
| Init
| Close
| Clear (fg bg : Attribute)
| SetCell (x y : Go.int) (ch : Go.rune) (fg bg : Attribute)
| SetCursor (x y : Go.int)
| Flush
| PollEvent (ev : Event).

End termbox.

(** ** Package trezor (pin.go) *)

Module trezor.
Import Go termbox.

Local Open Scope string_scope.
Local Open Scope Z_scope.

(** The values of Go's [error] that [GetPIN] can return: the package's
    own sentinel, [errors.New("user cancelled PIN entry")], or whatever
    [termbox.Init] reported. *)
Inductive error : Type :=
| ErrUserCancelledInput
| InitFailure (msg : string).

Definition Error (e : error) : string :=
  match e with
  | ErrUserCancelledInput => "user cancelled PIN entry"
  | InitFailure msg => msg
  end.

(** The local variables of [GetPIN]. *)
Record State : Type := mkState {
  cursorX : int;
  cursorY : int;
  pin : string
}.

(** [cursorX = 1], [cursorY = 1], [pin] the zero value of [string]. *)
Definition initial : State :=
  {| cursorX := 1; cursorY := 1; pin := "" |}.

Definition clamp (x min max : int) : int :=
  if x <? min then min
  else if max <? x then max
  else x.

(** [printStr]: one [SetCell] per rune of [s], the column counted in
    runes from [x]. *)
Fixpoint printRunes (x y i : int) (rs : list rune) : list Call :=
  match rs with
  | [] => []
  | r :: rs' =>
    SetCell (int_add x i) y r ColorDefault ColorDefault
      :: printRunes x y (incr i) rs'
  end.

Definition printStr (x y : int) (s : string) : list Call :=
  printRunes x y 0 (range_runes s).

Definition keypad : list (list string) :=
  [ ["7"; "8"; "9"];
    ["4"; "5"; "6"];
    ["1"; "2"; "3"] ].

(** The rune literals ['q'] and the filled circle U+25CF. *)
Definition rune_q : rune := byte_val "q".
Definition bullet : rune := 0x25CF.

(** The text drawn on row 6: the label and one filled circle per rune of
    [pin]. *)
Definition pinField (pin : string) : string :=
  "PIN: " ++ strings_Map (fun _ => bullet) pin.

(** The "Render" block: the terminal calls of one frame, in order. *)
Definition render (prompt : string) (st : State) : list Call :=
  ([Clear ColorDefault ColorDefault]
  ++ printStr 0 0 prompt
  ++ printStr 3 2 "●●●"
  ++ printStr 3 3 "●●●"
  ++ printStr 3 4 "●●●"
  ++ printStr 0 6 (pinField (pin st))
  ++ printStr 0 9 "[Arrow keys]: move cursor"
  ++ printStr 0 10 "[Space]:      press button under cursor"
  ++ printStr 0 11 "[Backspace]:  delete"
  ++ printStr 0 12 "[Enter]:      submit PIN"
  ++ printStr 0 13 "[q]:          exit without submitting PIN"
  ++ [SetCursor (int_add (cursorX st) 3) (int_add (cursorY st) 2); Flush])%list.

(** How a pass through the "Update state" block ends: at the bottom of
    the loop body (or at [continue]) with new values of the variables, at
    a [return], or in a run-time panic. *)
Inductive Flow : Type :=
| Next (st : State)
| Return (s : string) (err : option error)
| Panic.

(** The [switch event.Key] statement. *)
Definition switchKey (st : State) (key : KeyCode) : Flow :=
  if key =? KeyArrowUp then
    Next {| cursorX := cursorX st; cursorY := decr (cursorY st); pin := pin st |}
  else if key =? KeyArrowDown then
    Next {| cursorX := cursorX st; cursorY := incr (cursorY st); pin := pin st |}
  else if key =? KeyArrowLeft then
    Next {| cursorX := decr (cursorX st); cursorY := cursorY st; pin := pin st |}
  else if key =? KeyArrowRight then
    Next {| cursorX := incr (cursorX st); cursorY := cursorY st; pin := pin st |}
  else if key =? KeySpace then
    match index keypad (cursorY st) with
    | None => Panic
    | Some row =>
      match index row (cursorX st) with
      | None => Panic
      | Some digit =>
        Next {| cursorX := cursorX st; cursorY := cursorY st;
                pin := pin st ++ digit |}
      end
    end
  else if (key =? KeyBackspace) || (key =? KeyBackspace2) then
    if len (pin st) >? 0 then
      Next {| cursorX := cursorX st; cursorY := cursorY st;
              pin := slice_to (pin st) (len (pin st) - 1) |}
    else Next st
  else if key =? KeyEnter then Return (pin st) None
  else Next st.

(** The "Update state" block applied to the event [PollEvent] returned. *)
Definition update (st : State) (event : Event) : Flow :=
  if negb (EventType_eqb (Type' event) EventKey) then Next st
  else if (Ch event =? rune_q) || (Key event =? KeyCtrlC) then
    Return "" (Some ErrUserCancelledInput)
  else
    match switchKey st (Key event) with
    | Next st' =>
      Next {| cursorX := clamp (cursorX st') 0 2;
              cursorY := clamp (cursorY st') 0 2;
              pin := pin st' |}
    | flow => flow
    end.

(** How a call of [GetPIN] ends.  [Blocked]: the script of input events is
    used up and [PollEvent] does not return. *)
Inductive Outcome : Type :=
| Returned (s : string) (err : option error)
| Panicked
| Blocked.

(** The [for] loop, run against the events that [PollEvent] will return;
    the result is the trace of terminal calls and the way the loop ends. *)
Fixpoint loop (prompt : string) (st : State) (events : list Event)
  : list Call * Outcome :=
  match events with
  | [] => (render prompt st, Blocked)
  | event :: rest =>
    let frame := (render prompt st ++ [PollEvent event])%list in
    match update st event with
    | Next st' =>
      let (calls, out) := loop prompt st' rest in ((frame ++ calls)%list, out)
    | Return s err => (frame, Returned s err)
    | Panic => (frame, Panicked)
    end
  end.

(** The calls a deferred [termbox.Close] adds when the function is left,
    by [return] or by a panic. *)
Definition deferred (out : Outcome) : list Call :=
  match out with
  | Blocked => []
  | _ => [Close]
  end.

(** [GetPIN(prompt)], given what [termbox.Init] answers ([None] for [nil])
    and the events [PollEvent] will return. *)
Definition GetPIN (prompt : string) (initErr : option error)
  (events : list Event) : list Call * Outcome :=
  match initErr with
  | Some err => ([Init], Returned "" (Some err))
  | None =>
    let (calls, out) := loop prompt initial events in
    ((Init :: calls ++ deferred out)%list, out)
  end.

(** *** Vocabulary of the statements *)

(** The states the loop passes through. *)
Fixpoint visited (st : State) (events : list Event) : list State :=
  st :: match events with
        | [] => []
        | event :: rest =>
          match update st event with
          | Next st' => visited st' rest
          | _ => []
          end
        end.

Inductive reachable : State -> Prop :=
| reach_initial : reachable initial
| reach_next st event st' :
    reachable st -> update st event = Next st' -> reachable st'.

Definition inGrid (st : State) : Prop :=
  0 <= cursorX st <= 2 /\ 0 <= cursorY st <= 2.

(** A key event that is not a quit command and carries key code [k]. *)
Definition keyPress (event : Event) (k : KeyCode) : Prop :=
  Type' event = EventKey /\ Ch event <> rune_q /\ Key event = k.

(** The quit command: the character q, or Ctrl+C. *)
Definition quitPress (event : Event) : Prop :=
  Type' event = EventKey /\ (Ch event = rune_q \/ Key event = KeyCtrlC).

(** How often the terminal is released in a trace. *)
Definition isClose (c : Call) : bool :=
  match c with Close => true | _ => false end.

Definition releases (calls : list Call) : nat :=
  List.length (List.filter isClose calls).

(** The state in which the loop waits once the events are used up (the
    last state it passed through). *)
Fixpoint final (st : State) (events : list Event) : State :=
  match events with
  | [] => st
  | event :: rest =>
    match update st event with
    | Next st' => final st' rest
    | _ => st
    end
  end.

(** The digit set of the keypad, as bytes ['1'..'9']. *)
Definition isDigit (a : ascii) : bool :=
  (byte_val "1" <=? byte_val a) && (byte_val a <=? byte_val "9").

Fixpoint allDigits (s : string) : bool :=
  match s with
  | EmptyString => true
  | String a s' => isDigit a && allDigits s'
  end.

(** A string without its last byte; the empty string stays empty. *)
Fixpoint dropLast (s : string) : string :=
  match s with
  | EmptyString => EmptyString
  | String a EmptyString => EmptyString
  | String a s' => String a (dropLast s')
  end.

(** The table of the specification: the digit at row [r], column [c]. *)
Definition tableDigit (r c : Z) : string :=
  match r, c with
  | 0, 0 => "7" | 0, 1 => "8" | 0, 2 => "9"
  | 1, 0 => "4" | 1, 1 => "5" | 1, 2 => "6"
  | 2, 0 => "1" | 2, 1 => "2" | 2, 2 => "3"
  | _, _ => ""
  end.

(** The four directional commands, their key codes and the change of
    (column, row) each asks for. *)
Inductive Direction : Type := Up | Down | Left | Right.

Definition arrowKey (d : Direction) : KeyCode :=
  match d with
  | Up => KeyArrowUp
  | Down => KeyArrowDown
  | Left => KeyArrowLeft
  | Right => KeyArrowRight
  end.

Definition delta (d : Direction) : Z * Z :=
  match d with
  | Up => (0, -1)
  | Down => (0, 1)
  | Left => (-1, 0)
  | Right => (1, 0)
  end.

(** Move by (dx, dy) without wrap-around, then clamp both axes. *)
Definition moveClamped (st : State) (dx dy : Z) : State :=
  {| cursorX := clamp (cursorX st + dx) 0 2;
     cursorY := clamp (cursorY st + dy) 0 2;
     pin := pin st |}.

(** The same move with only the axis of the direction touched. *)
Definition moveAxis (st : State) (d : Direction) : State :=
  match d with
  | Up => {| cursorX := cursorX st;
             cursorY := clamp (cursorY st - 1) 0 2; pin := pin st |}
  | Down => {| cursorX := cursorX st;
               cursorY := clamp (cursorY st + 1) 0 2; pin := pin st |}
  | Left => {| cursorX := clamp (cursorX st - 1) 0 2;
               cursorY := cursorY st; pin := pin st |}
  | Right => {| cursorX := clamp (cursorX st + 1) 0 2;
                cursorY := cursorY st; pin := pin st |}
  end.

(** An event that is none of the commands. *)
Definition unbound (event : Event) : Prop :=
  Type' event <> EventKey
  \/ (Ch event <> rune_q
      /\ ~ In (Key event)
            [KeyCtrlC; KeyArrowUp; KeyArrowDown; KeyArrowLeft;
             KeyArrowRight; KeySpace; KeyBackspace; KeyBackspace2;
             KeyEnter]).

End trezor.

(** ** Package main (example/example.go) *)

Module example.
Import Go termbox trezor.

Local Open Scope string_scope.
Local Open Scope Z_scope.

Inductive Stream : Type := Stdout | Stderr.

(** What the process does, in order: a call into termbox, a write to one
    of the standard streams, the end of the process with an exit status,
    or the crash of the run time on a panic that nothing recovers. *)
Inductive Effect : Type :=
| Terminal (c : Call)
| Write (stream : Stream) (text : string)
| Exit (code : Z)
| Crash.

Definition newline : string := String (byte_of 0x0A) "".

(** [fmt.Fprintln(w, operands...)]: the operands in their default
    formats, a space between any two, and a newline at the end.  The
    default format of a string is the string, that of an error its
    [Error()] text. *)
Fixpoint Sprintln (operands : list string) : string :=
  match operands with
  | [] => newline
  | [a] => a ++ newline
  | a :: rest => a ++ " " ++ Sprintln rest
  end.

(** [main], given what [termbox.Init] answers and the events [PollEvent]
    will return.  A [main] that returns ends the process with status 0. *)
Definition main (initErr : option error) (events : list Event)
  : list Effect :=
  let (calls, out) := GetPIN "Enter PIN:" initErr events in
  (map Terminal calls
   ++ match out with
      | Returned _ (Some err) =>
        [Write Stderr (Sprintln [Error err]); Exit 1]
      | Returned pin None =>
        [Write Stdout (Sprintln ["Success! Scrambled PIN input:"; pin]);
         Exit 0]
      | Panicked => [Crash]
      | Blocked => []
      end)%list.

(** Everything written to a stream, in order. *)
Fixpoint written (stream : Stream) (effects : list Effect) : string :=
  match effects with
  | [] => ""
  | Write s text :: rest =>
    match stream, s with
    | Stdout, Stdout | Stderr, Stderr => text ++ written stream rest
    | _, _ => written stream rest
    end
  | _ :: rest => written stream rest
  end.

(** The exit status, when the process ends by [os.Exit] or by returning
    from [main]. *)
Fixpoint status (effects : list Effect) : option Z :=
  match effects with
  | [] => None
  | Exit code :: _ => Some code
  | _ :: rest => status rest
  end.

(** What [main] does once [GetPIN] is over. *)
Definition afterGetPIN (out : Outcome) : list Effect :=
  match out with
  | Returned _ (Some err) => [Write Stderr (Sprintln [Error err]); Exit 1]
  | Returned pin None =>
    [Write Stdout (Sprintln ["Success! Scrambled PIN input:"; pin]); Exit 0]
  | Panicked => [Crash]
  | Blocked => []
  end.

End example.

Import Go termbox trezor.
Local Open Scope string_scope.
Local Open Scope Z_scope.

Import example.

(** *** More vocabulary *)

(** An event on which the loop is left. *)
Definition ends (event : Event) : bool :=
  EventType_eqb (Type' event) EventKey
  && ((Ch event =? rune_q) || (Key event =? KeyCtrlC)
      || (Key event =? KeyEnter)).

(** The events the calls of [PollEvent] in a trace returned. *)
Fixpoint polled (calls : list Call) : list Event :=
  match calls with
  | [] => []
  | PollEvent ev :: rest => ev :: polled rest
  | _ :: rest => polled rest
  end.

Definition isFlush (c : Call) : bool :=
  match c with Flush => true | _ => false end.

Definition isClear (c : Call) : bool :=
  match c with Clear _ _ => true | _ => false end.

Definition count (p : Call -> bool) (calls : list Call) : nat :=
  List.length (List.filter p calls).

(** The cells a text of runes [rs] takes from column [x] on row [y], one
    column per rune. *)
Definition cellsAt (x y : Z) (rs : list rune) : list Call :=
  map (fun ir => SetCell (x + Z.of_nat (fst ir)) y (snd ir)
                         ColorDefault ColorDefault)
      (combine (seq 0 (List.length rs)) rs).

(** The cursor is on the edge of the grid that direction [d] leads to. *)
Definition atEdge (st : State) (d : Direction) : Prop :=
  match d with
  | Up => cursorY st = 0
  | Down => cursorY st = 2
  | Left => cursorX st = 0
  | Right => cursorX st = 2
  end.

Definition opposite (d : Direction) : Direction :=
  match d with
  | Up => Down
  | Down => Up
  | Left => Right
  | Right => Left
  end.

(** The key event termbox reports for a key that has a key code. *)
Definition press (k : KeyCode) : Event := mkEvent EventKey k 0.

(** The (row, column) of the keypad cell that holds digit byte [a]. *)
Definition cellOf (a : ascii) : Z * Z :=
  let v := byte_val a - byte_val "1" in
  (2 - v / 3, v mod 3).

(** Key strokes that enter digit [a] from any cell: to the top-left
    corner, down to the row, right to the column, select. *)
Definition strokes (a : ascii) : list Event :=
  (map press [KeyArrowUp; KeyArrowUp; KeyArrowLeft; KeyArrowLeft]
   ++ repeat (press KeyArrowDown) (Z.to_nat (fst (cellOf a)))
   ++ repeat (press KeyArrowRight) (Z.to_nat (snd (cellOf a)))
   ++ [press KeySpace])%list.

Fixpoint keystrokes (s : string) : list Event :=
  match s with
  | EmptyString => []
  | String a s' => (strokes a ++ keystrokes s')%list
  end.

(** A string of [n] bytes [a]. *)
Fixpoint nbytes (n : nat) (a : ascii) : string :=
  match n with
  | O => ""
  | S n' => String a (nbytes n' a)
  end.

(** A continuing step seen from outside: nothing, a move by one cell, one
    digit more, or the last byte less. *)
Inductive Change (st st' : State) : Prop :=
| Unchanged : st' = st -> Change st st'
| Moved :
    pin st' = pin st ->
    Z.abs (cursorX st' - cursorX st) + Z.abs (cursorY st' - cursorY st) = 1 ->
    Change st st'
| Appended :
    cursorX st' = cursorX st -> cursorY st' = cursorY st ->
    pin st' = pin st ++ tableDigit (cursorY st) (cursorX st) ->
    Change st st'
| Dropped :
    cursorX st' = cursorX st -> cursorY st' = cursorY st ->
    pin st <> "" -> pin st' = dropLast (pin st) ->
    Change st st'.






(** The order of the terminal calls of a session: [Init]; then, per
    iteration, [Clear], any number of [SetCell], [SetCursor], [Flush] and
    only then [PollEvent]; [Close] only where an iteration would start. *)
Inductive Phase : Type :=
| Start | Idle | Drawing | CursorSet | Flushed | Closed.

Definition advance (ph : Phase) (c : Call) : option Phase :=
  match ph, c with
  | Start, Init => Some Idle
  | Idle, Clear _ _ => Some Drawing
  | Idle, Close => Some Closed
  | Drawing, SetCell _ _ _ _ _ => Some Drawing
  | Drawing, SetCursor _ _ => Some CursorSet
  | CursorSet, Flush => Some Flushed
  | Flushed, PollEvent _ => Some Idle
  | _, _ => None
  end.

(** The phase a trace ends in, when it keeps to the order. *)
Fixpoint follows (ph : Phase) (calls : list Call) : option Phase :=
  match calls with
  | [] => Some ph
  | c :: rest =>
    match advance ph c with
    | Some ph' => follows ph' rest
    | None => None
    end
  end.



(** * Properties *)

(** A coordinate known to lie in [0,2] is 0, 1 or 2. *)
Ltac grid_cases r :=
  let E := fresh "E" in
  assert (E : r = 0 \/ r = 1 \/ r = 2) by lia;
  destruct E as [E | [E | E]]; rewrite ?E in *.

(** A concrete event is the key press it is built as. *)
Ltac pressed :=
  split; [reflexivity | split; [vm_compute; lia | reflexivity]].

(** ** Integers and clamping *)

Lemma wrap_int_small (z : Z) :
  - 2 ^ 63 <= z < 2 ^ 63 -> wrap_int z = z.
Proof.
  intros Hz. unfold wrap_int.
  rewrite Z.mod_small; lia.
Qed.

Lemma clamp_bounds (x : int) : 0 <= clamp x 0 2 <= 2.
Proof.
  unfold clamp.
  destruct (Z.ltb_spec x 0); [lia|].
  destruct (Z.ltb_spec 2 x); lia.
Qed.

Lemma clamp_fixed (x : int) : 0 <= x <= 2 -> clamp x 0 2 = x.
Proof.
  intros Hx. unfold clamp.
  destruct (Z.ltb_spec x 0); [lia|].
  destruct (Z.ltb_spec 2 x); lia.
Qed.

Lemma decr_small (x : int) : 0 <= x <= 2 -> decr x = x - 1.
Proof. intros Hx. apply wrap_int_small. lia. Qed.

Lemma incr_small (x : int) : 0 <= x <= 2 -> incr x = x + 1.
Proof. intros Hx. apply wrap_int_small. lia. Qed.

(** ** Strings *)

Lemma length_append (s t : string) :
  String.length (s ++ t) = (String.length s + String.length t)%nat.
Proof. induction s as [|a s IH]; simpl; [reflexivity | now rewrite IH]. Qed.

Lemma substring_prefix (s t : string) :
  substring 0 (String.length s) (s ++ t) = s.
Proof.
  induction s as [|a s IH]; simpl.
  - destruct t; reflexivity.
  - now rewrite IH.
Qed.

Lemma slice_drops_last (s : string) (a : ascii) :
  slice_to (s ++ String a "") (len (s ++ String a "") - 1) = s.
Proof.
  unfold slice_to, len. rewrite length_append. simpl String.length.
  replace (Z.to_nat (Z.of_nat (String.length s + 1) - 1)) with (String.length s)
    by lia.
  apply substring_prefix.
Qed.

Lemma len_nonempty (s : string) (a : ascii) :
  (len (s ++ String a "") >? 0) = true.
Proof.
  rewrite Z.gtb_ltb. apply Z.ltb_lt.
  unfold len. rewrite length_append. simpl String.length. lia.
Qed.

(** ** The event step *)

Lemma EventType_eqb_eq (a b : EventType) :
  EventType_eqb a b = true <-> a = b.
Proof. destruct a, b; simpl; split; congruence. Qed.

Lemma update_other_type (st : State) (event : Event) :
  Type' event <> EventKey -> update st event = Next st.
Proof.
  intros Hty. unfold update.
  destruct (EventType_eqb (Type' event) EventKey) eqn:E; [|reflexivity].
  apply EventType_eqb_eq in E. contradiction.
Qed.

Lemma update_quit (st : State) (event : Event) :
  quitPress event -> update st event = Return "" (Some ErrUserCancelledInput).
Proof.
  intros [Hty Hq]. unfold update. rewrite Hty. simpl.
  destruct Hq as [Hq | Hq]; rewrite Hq.
  - rewrite Z.eqb_refl. reflexivity.
  - rewrite Z.eqb_refl, orb_true_r. reflexivity.
Qed.

(** A key event that is not the quit command goes through the [switch]
    and, unless the [switch] returned, through both clamps. *)
Lemma update_key (st : State) (event : Event) :
  Type' event = EventKey -> Ch event <> rune_q -> Key event <> KeyCtrlC ->
  update st event =
  match switchKey st (Key event) with
  | Next st' =>
    Next {| cursorX := clamp (cursorX st') 0 2;
            cursorY := clamp (cursorY st') 0 2;
            pin := pin st' |}
  | flow => flow
  end.
Proof.
  intros Hty Hch Hkey. unfold update. rewrite Hty. simpl.
  apply Z.eqb_neq in Hch, Hkey. rewrite Hch, Hkey. reflexivity.
Qed.

Lemma update_keyPress (st : State) (event : Event) (k : KeyCode) :
  keyPress event k -> k <> KeyCtrlC ->
  update st event =
  match switchKey st k with
  | Next st' =>
    Next {| cursorX := clamp (cursorX st') 0 2;
            cursorY := clamp (cursorY st') 0 2;
            pin := pin st' |}
  | flow => flow
  end.
Proof.
  intros (Hty & Hch & Hk) Hne. subst k. now apply update_key.
Qed.

Lemma switchKey_arrow (st : State) (d : Direction) :
  switchKey st (arrowKey d) =
  Next match d with
       | Up => {| cursorX := cursorX st; cursorY := decr (cursorY st);
                  pin := pin st |}
       | Down => {| cursorX := cursorX st; cursorY := incr (cursorY st);
                    pin := pin st |}
       | Left => {| cursorX := decr (cursorX st); cursorY := cursorY st;
                    pin := pin st |}
       | Right => {| cursorX := incr (cursorX st); cursorY := cursorY st;
                     pin := pin st |}
       end.
Proof. destruct d; reflexivity. Qed.

Lemma switchKey_space (st : State) :
  inGrid st ->
  switchKey st KeySpace =
  Next {| cursorX := cursorX st; cursorY := cursorY st;
          pin := pin st ++ tableDigit (cursorY st) (cursorX st) |}.
Proof.
  intros [Hx Hy]. unfold switchKey. simpl Z.eqb. cbv iota.
  grid_cases (cursorY st); grid_cases (cursorX st); reflexivity.
Qed.

Lemma switchKey_backspace (st : State) (k : KeyCode) :
  k = KeyBackspace \/ k = KeyBackspace2 ->
  switchKey st k =
  if len (pin st) >? 0 then
    Next {| cursorX := cursorX st; cursorY := cursorY st;
            pin := slice_to (pin st) (len (pin st) - 1) |}
  else Next st.
Proof. intros [-> | ->]; reflexivity. Qed.

Lemma switchKey_enter (st : State) :
  switchKey st KeyEnter = Return (pin st) None.
Proof. reflexivity. Qed.

Lemma switchKey_unbound (st : State) (k : KeyCode) :
  ~ In k [KeyCtrlC; KeyArrowUp; KeyArrowDown; KeyArrowLeft;
          KeyArrowRight; KeySpace; KeyBackspace; KeyBackspace2; KeyEnter] ->
  switchKey st k = Next st.
Proof.
  intros Hk. unfold switchKey.
  repeat match goal with
  | |- context [k =? ?c] =>
    let E := fresh "E" in
    destruct (Z.eqb_spec k c) as [E | E];
      [exfalso; apply Hk; rewrite E; simpl; tauto |]
  end.
  reflexivity.
Qed.

Lemma arrowKey_not_CtrlC (d : Direction) : arrowKey d <> KeyCtrlC.
Proof. destruct d; discriminate. Qed.

Lemma clamped_inGrid (st : State) :
  inGrid {| cursorX := clamp (cursorX st) 0 2;
            cursorY := clamp (cursorY st) 0 2;
            pin := pin st |}.
Proof. split; simpl; apply clamp_bounds. Qed.

Lemma clamped_fixed (st : State) :
  inGrid st ->
  {| cursorX := clamp (cursorX st) 0 2;
     cursorY := clamp (cursorY st) 0 2;
     pin := pin st |} = st.
Proof.
  intros [Hx Hy]. destruct st as [x y p]; simpl in *.
  now rewrite !clamp_fixed.
Qed.

(** The cursor stays in the grid across every step that continues. *)
Lemma update_inGrid (st st' : State) (event : Event) :
  inGrid st -> update st event = Next st' -> inGrid st'.
Proof.
  intros Hin Hup. unfold update in Hup.
  destruct (negb (EventType_eqb (Type' event) EventKey)).
  - injection Hup as <-. exact Hin.
  - destruct ((Ch event =? rune_q) || (Key event =? KeyCtrlC));
      [discriminate|].
    destruct (switchKey st (Key event)) as [s | |]; try discriminate.
    injection Hup as <-. apply clamped_inGrid.
Qed.

(** With the cursor in the grid no step panics. *)
Lemma switchKey_no_panic (st : State) (k : KeyCode) :
  inGrid st -> switchKey st k <> Panic.
Proof.
  intros Hin. unfold switchKey.
  repeat match goal with
  | |- (if ?c =? ?d then _ else _) <> _ =>
    destruct (Z.eqb_spec c d); [discriminate|]
  end.
  destruct (Z.eqb_spec k KeySpace) as [-> |].
  - pose proof (switchKey_space st Hin) as E. unfold switchKey in E.
    simpl Z.eqb in E. cbv iota in E. rewrite E. discriminate.
  - destruct ((k =? KeyBackspace) || (k =? KeyBackspace2)).
    + destruct (len (pin st) >? 0); discriminate.
    + destruct (k =? KeyEnter); discriminate.
Qed.

Lemma update_no_panic (st : State) (event : Event) :
  inGrid st -> update st event <> Panic.
Proof.
  intros Hin. unfold update.
  destruct (negb (EventType_eqb (Type' event) EventKey)); [discriminate|].
  destruct ((Ch event =? rune_q) || (Key event =? KeyCtrlC));
    [discriminate|].
  pose proof (switchKey_no_panic st (Key event) Hin) as Hsw.
  destruct (switchKey st (Key event)); congruence.
Qed.

Lemma initial_inGrid : inGrid initial.
Proof. split; simpl; lia. Qed.

Lemma reachable_inGrid (st : State) : reachable st -> inGrid st.
Proof.
  induction 1 as [| st event st' _ IH Hup].
  - exact initial_inGrid.
  - exact (update_inGrid _ _ _ IH Hup).
Qed.

(** ** Sessions *)

Section Sessions.

Variable prompt : string.

Lemma loop_resume (pre post : list Event) (st : State) :
  snd (loop prompt st pre) = Blocked ->
  snd (loop prompt st (pre ++ post)) = snd (loop prompt (final st pre) post).
Proof.
  revert st. induction pre as [|event pre IH]; intros st Hblk.
  - reflexivity.
  - simpl in *. destruct (update st event) as [st' | s err |].
    + specialize (IH st').
      destruct (loop prompt st' pre) as [c1 o1].
      destruct (loop prompt st' (pre ++ post)) as [c2 o2].
      simpl in *. auto.
    + discriminate.
    + discriminate.
Qed.

Lemma final_reachable (events : list Event) (st : State) :
  reachable st -> reachable (final st events).
Proof.
  revert st. induction events as [|event rest IH]; intros st Hr; simpl.
  - exact Hr.
  - destruct (update st event) as [st' | |] eqn:E; try exact Hr.
    apply IH. exact (reach_next _ _ _ Hr E).
Qed.

Lemma visited_inGrid (events : list Event) (st : State) :
  inGrid st -> Forall inGrid (visited st events).
Proof.
  revert st. induction events as [|event rest IH]; intros st Hin; simpl.
  - constructor; [exact Hin | constructor].
  - constructor; [exact Hin|].
    destruct (update st event) as [st' | |] eqn:E; try constructor.
    apply IH. exact (update_inGrid _ _ _ Hin E).
Qed.

Lemma loop_no_panic (events : list Event) (st : State) :
  inGrid st -> snd (loop prompt st events) <> Panicked.
Proof.
  revert st. induction events as [|event rest IH]; intros st Hin; simpl.
  - discriminate.
  - pose proof (update_no_panic st event Hin) as Hnp.
    destruct (update st event) as [st' | s err |] eqn:E.
    + specialize (IH st' (update_inGrid _ _ _ Hin E)).
      destruct (loop prompt st' rest). exact IH.
    + discriminate.
    + congruence.
Qed.

Lemma GetPIN_outcome (events : list Event) :
  snd (GetPIN prompt None events) = snd (loop prompt initial events).
Proof. unfold GetPIN. destruct (loop prompt initial events). reflexivity. Qed.

End Sessions.

(** ** The keypad *)

Lemma keypad_index (r c : Z) :
  0 <= r <= 2 -> 0 <= c <= 2 ->
  exists row, index keypad r = Some row
              /\ index row c = Some (tableDigit r c).
Proof.
  intros Hr Hc.
  grid_cases r; grid_cases c; eexists; split; reflexivity.
Qed.

(** C1.  With the cursor at row r and column c, both in [0,2], a select
    (space) event appends to the accumulated PIN exactly the digit the
    fixed table gives for (r,c) -- 7 8 9 / 4 5 6 / 1 2 3 -- which is the
    entry [keypad[r][c]] of the code, and changes nothing else. *)
Theorem select_appends_table_digit
  (st : State) (event : Event) (r c : Z) :
  cursorY st = r -> cursorX st = c -> 0 <= r <= 2 -> 0 <= c <= 2 ->
  keyPress event KeySpace ->
  update st event =
    Next {| cursorX := c; cursorY := r; pin := pin st ++ tableDigit r c |}
  /\ (exists row, index keypad r = Some row
                  /\ index row c = Some (tableDigit r c))
  /\ String.length (tableDigit r c) = 1%nat.
Proof.
  intros Hr Hc Hrr Hcr Hev.
  assert (Hin : inGrid st) by (unfold inGrid; lia).
  split; [|split].
  - rewrite (update_keyPress st event KeySpace Hev) by discriminate.
    rewrite (switchKey_space st Hin). simpl. rewrite Hr, Hc.
    now rewrite !clamp_fixed.
  - now apply keypad_index.
  - grid_cases r; grid_cases c; reflexivity.
Qed.

Lemma select_appends_table_digit_witness :
  update {| cursorX := 2; cursorY := 0; pin := "12" |}
         (mkEvent EventKey KeySpace 0)
  = Next {| cursorX := 2; cursorY := 0; pin := "129" |}.
Proof.
  apply (select_appends_table_digit
           {| cursorX := 2; cursorY := 0; pin := "12" |}
           (mkEvent EventKey KeySpace 0) 0 2);
    try reflexivity; try lia.
  pressed.
Defined.

(** ** The cursor invariant *)

(** C2.  Whatever events arrive, every state the loop passes through from
    the initial one has its cursor row and column in [0,2], the two
    indexings [keypad[cursorY][cursorX]] of the select branch succeed
    there, and the session never ends in an index-out-of-range panic. *)
Theorem cursor_always_in_grid (prompt : string) (events : list Event) :
  Forall (fun st =>
            inGrid st
            /\ (exists row digit,
                   index keypad (cursorY st) = Some row
                   /\ index row (cursorX st) = Some digit)
            /\ forall event, update st event <> Panic)
         (visited initial events)
  /\ snd (GetPIN prompt None events) <> Panicked.
Proof.
  split.
  - pose proof (visited_inGrid events initial initial_inGrid) as Hall.
    eapply Forall_impl; [|exact Hall].
    intros st Hin. split; [exact Hin | split].
    + destruct Hin as [Hx Hy].
      destruct (keypad_index (cursorY st) (cursorX st) Hy Hx)
        as [row [H1 H2]].
      eauto.
    + intros event. now apply update_no_panic.
  - rewrite GetPIN_outcome. apply loop_no_panic, initial_inGrid.
Qed.

(** ** Leaving the session *)

(** C3.  In every state, whatever has been accumulated, a quit event (the
    character q or Ctrl+C) ends the session with the cancellation error
    and the empty string; so does a session that is still running after
    any events [pre] and then receives the quit event. *)
Theorem quit_cancels_with_empty_string
  (prompt : string) (st : State) (event : Event) (pre post : list Event) :
  quitPress event ->
  snd (GetPIN prompt None pre) = Blocked ->
  update st event = Return "" (Some ErrUserCancelledInput)
  /\ snd (GetPIN prompt None (pre ++ event :: post))
     = Returned "" (Some ErrUserCancelledInput).
Proof.
  intros Hq Hrun. split.
  - now apply update_quit.
  - rewrite GetPIN_outcome in *.
    rewrite (loop_resume prompt pre (event :: post) initial Hrun).
    simpl. now rewrite update_quit.
Qed.

Lemma quit_cancels_with_empty_string_witness :
  update {| cursorX := 0; cursorY := 2; pin := "741" |}
         (mkEvent EventKey 0 rune_q)
  = Return "" (Some ErrUserCancelledInput)
  /\ snd (GetPIN "Enter PIN:" None
            ([mkEvent EventKey KeySpace 0; mkEvent EventKey KeySpace 0]
             ++ mkEvent EventKey KeyCtrlC 0 :: []))
     = Returned "" (Some ErrUserCancelledInput).
Proof.
  split.
  - apply (quit_cancels_with_empty_string "Enter PIN:"
             {| cursorX := 0; cursorY := 2; pin := "741" |}
             (mkEvent EventKey 0 rune_q) [] []).
    + split; [reflexivity | left; reflexivity].
    + vm_compute. reflexivity.
  - apply (quit_cancels_with_empty_string "Enter PIN:" initial
             (mkEvent EventKey KeyCtrlC 0)
             [mkEvent EventKey KeySpace 0; mkEvent EventKey KeySpace 0] []).
    + split; [reflexivity | right; reflexivity].
    + vm_compute. reflexivity.
Defined.

(** C4.  In every state a submit (enter) event ends the session returning
    the accumulated PIN as it is, with no error; submitted as the first
    event it returns the empty string with no error, and submitted after
    events [pre] that left the session running it returns the PIN
    accumulated by [pre]. *)
Theorem submit_returns_pin
  (prompt : string) (st : State) (event : Event) (pre post : list Event) :
  keyPress event KeyEnter ->
  snd (GetPIN prompt None pre) = Blocked ->
  update st event = Return (pin st) None
  /\ snd (GetPIN prompt None (event :: post)) = Returned "" None
  /\ snd (GetPIN prompt None (pre ++ event :: post))
     = Returned (pin (final initial pre)) None.
Proof.
  intros Hev Hrun.
  assert (Hup : forall s, update s event = Return (pin s) None).
  { intros s. rewrite (update_keyPress s event KeyEnter Hev) by discriminate.
    reflexivity. }
  split; [apply Hup | split].
  - rewrite GetPIN_outcome. simpl. now rewrite Hup.
  - rewrite GetPIN_outcome in *.
    rewrite (loop_resume prompt pre (event :: post) initial Hrun).
    simpl. now rewrite Hup.
Qed.

Lemma submit_returns_pin_witness :
  update {| cursorX := 0; cursorY := 2; pin := "741" |}
         (mkEvent EventKey KeyEnter 0)
  = Return "741" None
  /\ snd (GetPIN "Enter PIN:" None (mkEvent EventKey KeyEnter 0 :: []))
     = Returned "" None
  /\ snd (GetPIN "Enter PIN:" None
            ([mkEvent EventKey KeyArrowUp 0; mkEvent EventKey KeySpace 0]
             ++ mkEvent EventKey KeyEnter 0 :: []))
     = Returned "8" None.
Proof.
  destruct (submit_returns_pin "Enter PIN:"
              {| cursorX := 0; cursorY := 2; pin := "741" |}
              (mkEvent EventKey KeyEnter 0)
              [mkEvent EventKey KeyArrowUp 0; mkEvent EventKey KeySpace 0]
              []) as (H1 & H2 & H3).
  - pressed.
  - vm_compute. reflexivity.
  - split; [exact H1 | split; [exact H2 | exact H3]].
Defined.

(** ** Moving the cursor *)

Lemma update_arrow (st : State) (event : Event) (d : Direction) :
  keyPress event (arrowKey d) ->
  update st event =
  Next match d with
       | Up => {| cursorX := clamp (cursorX st) 0 2;
                  cursorY := clamp (decr (cursorY st)) 0 2; pin := pin st |}
       | Down => {| cursorX := clamp (cursorX st) 0 2;
                    cursorY := clamp (incr (cursorY st)) 0 2; pin := pin st |}
       | Left => {| cursorX := clamp (decr (cursorX st)) 0 2;
                    cursorY := clamp (cursorY st) 0 2; pin := pin st |}
       | Right => {| cursorX := clamp (incr (cursorX st)) 0 2;
                     cursorY := clamp (cursorY st) 0 2; pin := pin st |}
       end.
Proof.
  intros Hev.
  rewrite (update_keyPress st event (arrowKey d) Hev)
    by apply arrowKey_not_CtrlC.
  rewrite switchKey_arrow. destruct d; reflexivity.
Qed.

(** C5.  With the cursor in the grid, a directional event changes the axis
    of its direction by one (up and left decrement, down and right
    increment), then clamps both axes to [0,2], and leaves the PIN as it
    is; the outcome is the one of clamping the touched axis alone. *)
Theorem arrow_moves_by_one_then_clamps
  (st : State) (event : Event) (d : Direction) :
  inGrid st -> keyPress event (arrowKey d) ->
  update st event = Next (moveClamped st (fst (delta d)) (snd (delta d)))
  /\ moveClamped st (fst (delta d)) (snd (delta d)) = moveAxis st d
  /\ pin (moveAxis st d) = pin st.
Proof.
  intros [Hx Hy] Hev. rewrite (update_arrow st event d Hev).
  unfold moveClamped, moveAxis.
  destruct d; simpl;
    rewrite ?decr_small, ?incr_small, ?Z.add_0_r by assumption;
    rewrite ?(clamp_fixed (cursorX st)), ?(clamp_fixed (cursorY st))
      by assumption;
    repeat split; reflexivity.
Qed.

Lemma arrow_moves_by_one_then_clamps_witness :
  update {| cursorX := 2; cursorY := 1; pin := "6" |}
         (mkEvent EventKey KeyArrowRight 0)
  = Next {| cursorX := 2; cursorY := 1; pin := "6" |}
  /\ update {| cursorX := 2; cursorY := 1; pin := "6" |}
            (mkEvent EventKey KeyArrowUp 0)
     = Next {| cursorX := 2; cursorY := 0; pin := "6" |}.
Proof.
  split.
  - apply (arrow_moves_by_one_then_clamps
             {| cursorX := 2; cursorY := 1; pin := "6" |}
             (mkEvent EventKey KeyArrowRight 0) Right).
    + split; simpl; lia.
    + pressed.
  - apply (arrow_moves_by_one_then_clamps
             {| cursorX := 2; cursorY := 1; pin := "6" |}
             (mkEvent EventKey KeyArrowUp 0) Up).
    + split; simpl; lia.
    + pressed.
Defined.

(** ** Dropping the last byte *)

Lemma dropLast_snoc (s : string) (a : ascii) :
  dropLast (s ++ String a "") = s.
Proof.
  induction s as [|b s IH]; simpl; [reflexivity|].
  rewrite IH. destruct s; reflexivity.
Qed.

Lemma string_snoc (s : string) :
  s = "" \/ exists s' a, s = s' ++ String a "".
Proof.
  induction s as [|b s IH]; [now left | right].
  destruct IH as [-> | (s' & a & ->)].
  - exists "", b. reflexivity.
  - exists (String b s'), a. reflexivity.
Qed.

Lemma update_backspace (st : State) (event : Event) :
  keyPress event KeyBackspace \/ keyPress event KeyBackspace2 ->
  update st event =
  Next {| cursorX := clamp (cursorX st) 0 2;
          cursorY := clamp (cursorY st) 0 2;
          pin := dropLast (pin st) |}.
Proof.
  intros Hev.
  assert (E : exists k, keyPress event k
                        /\ (k = KeyBackspace \/ k = KeyBackspace2)).
  { destruct Hev; eauto. }
  destruct E as (k & Hk & Hkk).
  rewrite (update_keyPress st event k Hk)
    by (destruct Hkk; subst; discriminate).
  rewrite (switchKey_backspace st k Hkk).
  destruct (string_snoc (pin st)) as [E | (s & a & E)]; rewrite E.
  - simpl. rewrite E. reflexivity.
  - rewrite len_nonempty, slice_drops_last, dropLast_snoc. reflexivity.
Qed.

(** ** The accumulated PIN holds keypad digits only *)

Lemma allDigits_append (s t : string) :
  allDigits (s ++ t) = allDigits s && allDigits t.
Proof.
  induction s as [|a s IH]; simpl; [reflexivity|].
  now rewrite IH, andb_assoc.
Qed.

Lemma allDigits_dropLast (s : string) :
  allDigits s = true -> allDigits (dropLast s) = true.
Proof.
  destruct (string_snoc s) as [-> | (s' & a & ->)]; [reflexivity|].
  rewrite dropLast_snoc, allDigits_append.
  intros H. now apply andb_prop in H.
Qed.

Lemma allDigits_tableDigit (r c : Z) : allDigits (tableDigit r c) = true.
Proof.
  unfold tableDigit.
  repeat match goal with
  | |- context [match ?z with _ => _ end] => destruct z
  end; reflexivity.
Qed.

Lemma switchKey_pin (st st' : State) (k : KeyCode) :
  inGrid st -> switchKey st k = Next st' ->
  pin st' = pin st
  \/ pin st' = pin st ++ tableDigit (cursorY st) (cursorX st)
  \/ pin st' = dropLast (pin st).
Proof.
  intros Hin. unfold switchKey.
  repeat match goal with
  | |- (if ?c =? ?d then _ else _) = _ -> _ =>
    destruct (Z.eqb_spec c d);
      [intros E; injection E as <-; left; reflexivity |]
  end.
  destruct (Z.eqb_spec k KeySpace) as [-> |].
  - pose proof (switchKey_space st Hin) as E. unfold switchKey in E.
    simpl Z.eqb in E. cbv iota in E. rewrite E.
    intros E'. injection E' as <-. right; left. reflexivity.
  - destruct ((k =? KeyBackspace) || (k =? KeyBackspace2)).
    + destruct (string_snoc (pin st)) as [E | (s & a & E)]; rewrite E.
      * simpl. intros E'. injection E' as <-. left. exact E.
      * rewrite len_nonempty, slice_drops_last, dropLast_snoc.
        intros E'. injection E' as <-. right; right. reflexivity.
    + destruct (k =? KeyEnter); [discriminate|].
      intros E'. injection E' as <-. left. reflexivity.
Qed.

Lemma update_allDigits (st st' : State) (event : Event) :
  inGrid st -> allDigits (pin st) = true ->
  update st event = Next st' -> allDigits (pin st') = true.
Proof.
  intros Hin Hd Hup. unfold update in Hup.
  destruct (negb (EventType_eqb (Type' event) EventKey)).
  - injection Hup as <-. exact Hd.
  - destruct ((Ch event =? rune_q) || (Key event =? KeyCtrlC));
      [discriminate|].
    destruct (switchKey st (Key event)) as [s | |] eqn:E; try discriminate.
    injection Hup as <-. simpl.
    destruct (switchKey_pin st s (Key event) Hin E) as [-> | [-> | ->]].
    + exact Hd.
    + now rewrite allDigits_append, Hd, allDigits_tableDigit.
    + now apply allDigits_dropLast.
Qed.

Lemma reachable_allDigits (st : State) :
  reachable st -> allDigits (pin st) = true.
Proof.
  induction 1 as [| st event st' Hr IH Hup].
  - reflexivity.
  - exact (update_allDigits _ _ _ (reachable_inGrid _ Hr) IH Hup).
Qed.

(** ** Runes of the strings that are drawn *)

Example range_runes_multibyte :
  range_runes "é€😀" = [0xE9; 0x20AC; 0x1F600].
Proof. reflexivity. Qed.

(** An ill-formed byte yields [RuneError] and is skipped alone. *)
Example range_runes_ill_formed :
  range_runes (String (byte_of 0xE2) "A") = [RuneError; byte_val "A"].
Proof. reflexivity. Qed.

Example EncodeRune_bullet : EncodeRune bullet = "●".
Proof. reflexivity. Qed.

Lemma decoderune_ascii (a : ascii) (s : string) :
  byte_val a < RuneSelf -> decoderune a s = (byte_val a, 1%nat).
Proof.
  intros Ha. unfold decoderune.
  apply Z.ltb_lt in Ha. now rewrite Ha.
Qed.

Lemma range_runes_ascii (a : ascii) (s : string) :
  byte_val a < RuneSelf ->
  range_runes (String a s) = byte_val a :: range_runes s.
Proof.
  intros Ha. simpl. rewrite (decoderune_ascii a s Ha).
  destruct s; reflexivity.
Qed.

Lemma isDigit_ascii (a : ascii) : isDigit a = true -> byte_val a < RuneSelf.
Proof.
  unfold isDigit. intros H. apply andb_prop in H. destruct H as [_ H].
  apply Z.leb_le in H. change (byte_val "9") with 57 in H.
  change RuneSelf with 128. lia.
Qed.







Lemma range_runes_digits_app (s t : string) :
  allDigits s = true ->
  range_runes (s ++ t) = (range_runes s ++ range_runes t)%list.
Proof.
  induction s as [|a s IH]; [reflexivity|].
  simpl allDigits. intros H. apply andb_prop in H. destruct H as [Ha Hs].
  change (String a s ++ t) with (String a (s ++ t)).
  rewrite !(range_runes_ascii a _ (isDigit_ascii a Ha)), (IH Hs).
  reflexivity.
Qed.

(** On a PIN of digits, dropping the last byte drops the last rune. *)
Lemma dropLast_runes (s : string) :
  allDigits s = true ->
  range_runes (dropLast s) = removelast (range_runes s).
Proof.
  destruct (string_snoc s) as [-> | (s' & a & ->)]; [reflexivity|].
  rewrite allDigits_append. intros H. apply andb_prop in H.
  destruct H as [Hs Ha]. simpl in Ha. rewrite andb_true_r in Ha.
  rewrite dropLast_snoc, (range_runes_digits_app s' _ Hs).
  rewrite (range_runes_ascii a "" (isDigit_ascii a Ha)).
  apply eq_sym, removelast_last.
Qed.

(** ** Deleting and selecting *)

(** C6, as the code has it.  In a state with the cursor in the grid, a
    delete event (either backspace key) removes the last byte of the PIN
    and leaves an empty PIN empty; on a PIN of keypad digits that byte is
    the last character; a delete after a select undoes it; and two
    deletes after a select amount to one delete of the state before the
    select, which gives that state back exactly when its PIN was empty. *)
Theorem delete_removes_last
  (st : State) (select delete : Event) :
  inGrid st ->
  keyPress select KeySpace ->
  keyPress delete KeyBackspace \/ keyPress delete KeyBackspace2 ->
  update st delete
  = Next {| cursorX := cursorX st; cursorY := cursorY st;
            pin := dropLast (pin st) |}
  /\ dropLast "" = ""
  /\ (forall s a, dropLast (s ++ String a "") = s)
  /\ (allDigits (pin st) = true ->
      range_runes (dropLast (pin st)) = removelast (range_runes (pin st)))
  /\ exists appended twice,
       update st select = Next appended
       /\ update appended delete = Next st
       /\ update st delete = Next twice
       /\ (twice = st <-> pin st = "").
Proof.
  intros Hin Hsel Hdel.
  assert (Hd : forall s, inGrid s ->
             update s delete
             = Next {| cursorX := cursorX s; cursorY := cursorY s;
                       pin := dropLast (pin s) |}).
  { intros s [Hx Hy]. rewrite (update_backspace s delete Hdel).
    now rewrite !clamp_fixed. }
  split; [now apply Hd | split; [reflexivity | split; [|split]]].
  - apply dropLast_snoc.
  - apply dropLast_runes.
  - pose proof (update_keyPress st select KeySpace Hsel) as Hup.
    rewrite (switchKey_space st Hin) in Hup. simpl in Hup.
    destruct Hin as [Hx Hy].
    rewrite !clamp_fixed in Hup by assumption.
    assert (Hlen : exists a,
               tableDigit (cursorY st) (cursorX st) = String a "").
    { grid_cases (cursorY st); grid_cases (cursorX st);
        eexists; reflexivity. }
    destruct Hlen as [a Ha]. rewrite Ha in Hup.
    eexists. eexists.
    split; [apply Hup; discriminate | split; [|split]].
    + rewrite Hd by (split; simpl; assumption). simpl.
      rewrite dropLast_snoc. destruct st; reflexivity.
    + apply Hd. split; assumption.
    + split.
      * intros E. apply (f_equal pin) in E. simpl in E.
        destruct (string_snoc (pin st)) as [E0 | (s & b & E0)];
          [exact E0|].
        rewrite E0, dropLast_snoc in E.
        apply (f_equal String.length) in E.
        rewrite length_append in E. simpl in E. lia.
      * intros E. destruct st as [x y p]. simpl in *. subst p. reflexivity.
Qed.

Lemma delete_removes_last_witness :
  update {| cursorX := 1; cursorY := 1; pin := "57" |}
         (mkEvent EventKey KeyBackspace2 0)
  = Next {| cursorX := 1; cursorY := 1; pin := "5" |}.
Proof.
  apply (delete_removes_last
           {| cursorX := 1; cursorY := 1; pin := "57" |}
           (mkEvent EventKey KeySpace 0)
           (mkEvent EventKey KeyBackspace2 0)).
  - split; simpl; lia.
  - pressed.
  - right. pressed.
Defined.

(** C6, as the specification words it, fails: from the state reached by
    one select, a select followed by two deletes ends with an empty PIN,
    not with the PIN "5" the state had before. *)
Lemma delete_delete_append_counterexample :
  reachable {| cursorX := 1; cursorY := 1; pin := "5" |}
  /\ exists appended once twice,
       update {| cursorX := 1; cursorY := 1; pin := "5" |}
              (mkEvent EventKey KeySpace 0) = Next appended
       /\ update appended (mkEvent EventKey KeyBackspace 0) = Next once
       /\ update once (mkEvent EventKey KeyBackspace 0) = Next twice
       /\ twice <> {| cursorX := 1; cursorY := 1; pin := "5" |}.
Proof.
  split.
  - apply (reach_next initial (mkEvent EventKey KeySpace 0));
      [apply reach_initial | reflexivity].
  - exists {| cursorX := 1; cursorY := 1; pin := "55" |},
           {| cursorX := 1; cursorY := 1; pin := "5" |},
           {| cursorX := 1; cursorY := 1; pin := "" |}.
    repeat split; try reflexivity. discriminate.
Qed.

(** ** Events that are not commands *)

(** C9.  With the cursor in the grid, an event that is not a key event,
    or a key event that is none of the commands, leaves cursor and PIN as
    they are and does not end the session: the loop paints the next frame
    from the same state and goes on with the remaining events. *)
Theorem unbound_event_is_ignored
  (prompt : string) (st : State) (event : Event) (rest : list Event) :
  inGrid st -> unbound event ->
  update st event = Next st
  /\ loop prompt st (event :: rest)
     = ((render prompt st ++ [PollEvent event])
          ++ fst (loop prompt st rest),
        snd (loop prompt st rest))%list.
Proof.
  intros Hin Hun.
  assert (Hup : update st event = Next st).
  { destruct Hun as [Hty | [Hch Hkey]].
    - now apply update_other_type.
    - destruct (EventType_eqb (Type' event) EventKey) eqn:E.
      + apply EventType_eqb_eq in E.
        rewrite (update_key st event E Hch)
          by (intros K; apply Hkey; rewrite K; simpl; tauto).
        rewrite (switchKey_unbound st (Key event) Hkey).
        now rewrite (clamped_fixed st Hin).
      + apply update_other_type. intros K.
        rewrite K in E. discriminate. }
  split; [exact Hup|].
  simpl. rewrite Hup. destruct (loop prompt st rest). reflexivity.
Qed.

Lemma unbound_event_is_ignored_witness :
  update {| cursorX := 0; cursorY := 2; pin := "1" |}
         (mkEvent EventKey 0 (byte_val "x"))
  = Next {| cursorX := 0; cursorY := 2; pin := "1" |}
  /\ update {| cursorX := 0; cursorY := 2; pin := "1" |}
            (mkEvent EventResize KeyEnter 0)
     = Next {| cursorX := 0; cursorY := 2; pin := "1" |}.
Proof.
  split.
  - apply (unbound_event_is_ignored ""
             {| cursorX := 0; cursorY := 2; pin := "1" |}
             (mkEvent EventKey 0 (byte_val "x")) []).
    + split; simpl; lia.
    + right. split; [vm_compute; lia|]. vm_compute. intuition lia.
  - apply (unbound_event_is_ignored ""
             {| cursorX := 0; cursorY := 2; pin := "1" |}
             (mkEvent EventResize KeyEnter 0) []).
    + split; simpl; lia.
    + left. simpl. discriminate.
Defined.

(** ** The start of a session *)

(** C10.  A session starts with the cursor at row 1, column 1 and an empty
    PIN; the first frame puts the terminal cursor on the centre cell, and
    a select as the first event appends the digit 5, so that select then
    submit returns "5". *)
Theorem session_starts_at_centre
  (prompt : string) (select submit : Event) (post : list Event) :
  keyPress select KeySpace -> keyPress submit KeyEnter ->
  cursorY initial = 1 /\ cursorX initial = 1 /\ pin initial = ""
  /\ fst (GetPIN prompt None []) = (Init :: render prompt initial)%list
  /\ In (SetCursor 4 3) (render prompt initial)
  /\ update initial select
     = Next {| cursorX := 1; cursorY := 1; pin := "5" |}
  /\ snd (GetPIN prompt None (select :: submit :: post)) = Returned "5" None.
Proof.
  intros Hsel Hsub.
  assert (Hup : update initial select
                = Next {| cursorX := 1; cursorY := 1; pin := "5" |}).
  { rewrite (update_keyPress initial select KeySpace Hsel) by discriminate.
    reflexivity. }
  repeat split; try reflexivity.
  - unfold GetPIN. simpl. now rewrite app_nil_r.
  - unfold render. do 11 (apply in_or_app; right). left. reflexivity.
  - exact Hup.
  - rewrite GetPIN_outcome. simpl. rewrite Hup.
    rewrite (update_keyPress _ submit KeyEnter Hsub) by discriminate.
    reflexivity.
Qed.

(** Down, right, select, up, left, select, select, enter from the start:
    the cells passed are (2,1), (2,2), (1,2), (1,1). *)
Example scenario_from_centre :
  snd (GetPIN "Enter PIN:" None
         (map (fun k => mkEvent EventKey k 0)
              [KeyArrowDown; KeyArrowRight; KeySpace; KeyArrowUp;
               KeyArrowLeft; KeySpace; KeySpace; KeyEnter]))
  = Returned "355" None.
Proof. vm_compute. reflexivity. Qed.

Lemma session_starts_at_centre_witness :
  snd (GetPIN "Enter PIN:" None
         [mkEvent EventKey KeySpace 0; mkEvent EventKey KeyEnter 0])
  = Returned "5" None.
Proof.
  apply (session_starts_at_centre "Enter PIN:"
           (mkEvent EventKey KeySpace 0) (mkEvent EventKey KeyEnter 0) []).
  - pressed.
  - pressed.
Defined.

(** ** Rows of a frame *)

Lemma printRunes_runes (rs : list rune) (x y i : int) :
  Forall (fun c => exists col r,
              c = SetCell col y r ColorDefault ColorDefault /\ In r rs)
         (printRunes x y i rs).
Proof.
  revert i. induction rs as [|r rs IH]; intros i; cbn [printRunes].
  - constructor.
  - constructor.
    + exists (int_add x i), r. split; [reflexivity | left; reflexivity].
    + eapply Forall_impl; [|apply IH].
      intros c (col & r' & E & Hin). exists col, r'.
      split; [exact E | right; exact Hin].
Qed.









(** ** What a frame shows of the PIN *)



(** ** Releasing the terminal *)

Section Releases.

Variable prompt : string.

Lemma releases_app (a b : list Call) :
  releases (a ++ b) = (releases a + releases b)%nat.
Proof. unfold releases. now rewrite filter_app, length_app. Qed.

Lemma releases_printRunes (x y i : int) (rs : list rune) :
  releases (printRunes x y i rs) = 0%nat.
Proof.
  unfold releases. revert i.
  induction rs as [|r rs IH]; intros i; simpl; auto.
Qed.

Lemma releases_render (st : State) :
  releases (render prompt st) = 0%nat.
Proof.
  unfold render, printStr.
  rewrite !releases_app, !releases_printRunes. reflexivity.
Qed.

Lemma releases_loop (events : list Event) (st : State) :
  releases (fst (loop prompt st events)) = 0%nat.
Proof.
  revert st. induction events as [|event rest IH]; intros st; cbn [loop].
  - apply releases_render.
  - assert (Hf : releases (render prompt st ++ [PollEvent event]) = 0%nat)
      by (rewrite releases_app, releases_render; reflexivity).
    cbv zeta.
    destruct (update st event) as [st' | s err |]; cbn [fst]; try exact Hf.
    specialize (IH st'). destruct (loop prompt st' rest) as [calls out].
    cbn [fst] in *. now rewrite releases_app, Hf, IH.
Qed.

End Releases.

(** C7, as the code has it.  Whenever [GetPIN] is left -- by submit, by
    cancel or otherwise -- after the terminal was acquired, the trace
    holds exactly one release, and it is the last call; when the
    acquisition itself fails, [GetPIN] returns that error at once and the
    trace holds no release. *)
Theorem release_once_after_acquisition
  (prompt : string) (initErr : option error) (events : list Event) :
  snd (GetPIN prompt initErr events) <> Blocked ->
  releases (fst (GetPIN prompt initErr events))
  = match initErr with None => 1%nat | Some _ => 0%nat end
  /\ match initErr with
     | None =>
       exists calls,
         fst (GetPIN prompt initErr events) = (Init :: calls ++ [Close])%list
         /\ releases calls = 0%nat
     | Some err =>
       GetPIN prompt initErr events = ([Init], Returned "" (Some err))
     end.
Proof.
  destruct initErr as [err|].
  - intros _. split; reflexivity.
  - unfold GetPIN. pose proof (releases_loop prompt events initial) as Hl.
    destruct (loop prompt initial events) as [calls out]. simpl in *.
    intros Hout.
    assert (Hd : deferred out = [Close]) by (destruct out; simpl; congruence).
    rewrite Hd. split.
    + change (Init :: calls ++ [Close])%list
        with ([Init] ++ calls ++ [Close])%list.
      rewrite !releases_app, Hl. reflexivity.
    + exists calls. split; [reflexivity | exact Hl].
Qed.

Lemma release_once_after_acquisition_witness :
  releases (fst (GetPIN "Enter PIN:" None
                   [mkEvent EventKey KeySpace 0;
                    mkEvent EventKey KeyEnter 0])) = 1%nat
  /\ releases (fst (GetPIN "Enter PIN:" None
                      [mkEvent EventKey 0 rune_q])) = 1%nat.
Proof.
  split.
  - apply (release_once_after_acquisition "Enter PIN:" None
             [mkEvent EventKey KeySpace 0; mkEvent EventKey KeyEnter 0]).
    vm_compute. discriminate.
  - apply (release_once_after_acquisition "Enter PIN:" None
             [mkEvent EventKey 0 rune_q]).
    vm_compute. discriminate.
Defined.

(** C7, as the specification words it, fails on the exit path of a failed
    initialisation: [GetPIN] returns the error of [termbox.Init] before the
    release is deferred, and the trace holds no release. *)
Lemma release_on_init_failure_counterexample :
  GetPIN "Enter PIN:" (Some (InitFailure "open /dev/tty: no such device"))
         []
  = ([Init], Returned "" (Some (InitFailure "open /dev/tty: no such device")))
  /\ releases (fst (GetPIN "Enter PIN:"
                      (Some (InitFailure "open /dev/tty: no such device"))
                      []))
     <> 1%nat.
Proof. split; [reflexivity | vm_compute; discriminate]. Qed.

(** * Further properties of the code *)

(** ** [clamp] *)

(** X1.  When [min <= max], [clamp x min max] lies in [[min, max]], is [x]
    itself exactly when [x] already lies there, and clamping twice is
    clamping once. *)
Theorem clamp_within (x min max : int) :
  min <= max ->
  min <= clamp x min max <= max
  /\ (clamp x min max = x <-> min <= x <= max)
  /\ clamp (clamp x min max) min max = clamp x min max.
Proof.
  intros Hmm. unfold clamp.
  destruct (Z.ltb_spec x min) as [H1 | H1].
  - rewrite Z.ltb_irrefl.
    destruct (Z.ltb_spec max min); [lia|]. repeat split; lia.
  - destruct (Z.ltb_spec max x) as [H2 | H2].
    + destruct (Z.ltb_spec max min); [lia|]. rewrite Z.ltb_irrefl.
      repeat split; lia.
    + destruct (Z.ltb_spec x min); [lia|].
      destruct (Z.ltb_spec max x); [lia|]. repeat split; lia.
Qed.

Lemma clamp_within_witness :
  0 <= clamp 7 0 2 <= 2
  /\ (clamp 7 0 2 = 7 <-> 0 <= 7 <= 2)
  /\ clamp (clamp 7 0 2) 0 2 = clamp 7 0 2.
Proof. apply (clamp_within 7 0 2). lia. Defined.

(** ** [printStr] *)

Lemma range_runes_cons (a0 : ascii) (s0 : string) :
  range_runes (String a0 s0) =
  fst (decoderune a0 s0)
    :: match snd (decoderune a0 s0), s0 with
       | 2%nat, String _ s1 => range_runes s1
       | 3%nat, String _ (String _ s2) => range_runes s2
       | 4%nat, String _ (String _ (String _ s3)) => range_runes s3
       | _, _ => range_runes s0
       end.
Proof.
  cbn [range_runes]. destruct (decoderune a0 s0) as [r size]. reflexivity.
Qed.

(** Decoding never yields more runes than there are bytes. *)
Lemma range_runes_length_bounded (n : nat) (s : string) :
  (String.length s <= n)%nat ->
  (List.length (range_runes s) <= String.length s)%nat.
Proof.
  revert s. induction n as [|n IH]; intros s Hn.
  - destruct s; simpl in *; [apply Nat.le_refl | lia].
  - destruct s as [|a0 s0]; [apply Nat.le_refl|].
    rewrite range_runes_cons. cbn [String.length List.length] in *.
    apply le_n_S.
    destruct (snd (decoderune a0 s0)) as [|[|[|[|[|size]]]]];
      destruct s0 as [|a1 [|a2 [|a3 s3]]];
      cbn [String.length] in *;
      (eapply Nat.le_trans;
       [apply IH; cbn [String.length]; lia | cbn [String.length]; lia]).
Qed.

Lemma range_runes_length (s : string) :
  (List.length (range_runes s) <= String.length s)%nat.
Proof. apply (range_runes_length_bounded (String.length s)), Nat.le_refl. Qed.

Lemma printRunes_cells (rs : list rune) (x y : Z) (j : nat) :
  0 <= x -> x + Z.of_nat (j + List.length rs) < 2 ^ 63 ->
  printRunes x y (Z.of_nat j) rs
  = map (fun ir => SetCell (x + Z.of_nat (fst ir)) y (snd ir)
                           ColorDefault ColorDefault)
        (combine (seq j (List.length rs)) rs).
Proof.
  revert j. induction rs as [|r rs IH]; intros j Hx Hb; [reflexivity|].
  cbn [printRunes List.length seq combine map fst snd].
  cbn [List.length] in Hb.
  assert (E1 : int_add x (Z.of_nat j) = x + Z.of_nat j)
    by (apply wrap_int_small; lia).
  assert (E2 : incr (Z.of_nat j) = Z.of_nat (S j))
    by (unfold incr; rewrite wrap_int_small; lia).
  rewrite E1, E2. f_equal. apply IH; [exact Hx | lia].
Qed.

(** X2.  [printStr x y s] draws the runes of [s], not its bytes: rune
    number i goes to column [x + i] of row [y] in the default colours, so
    a multi-byte character takes one column, and there are never more
    cells than bytes.  (Columns are [int]s: the statement is for texts
    that end before column 2^63.) *)
Theorem printStr_one_column_per_rune (x y : Z) (s : string) :
  0 <= x -> x + Z.of_nat (List.length (range_runes s)) < 2 ^ 63 ->
  printStr x y s = cellsAt x y (range_runes s)
  /\ List.length (printStr x y s) = List.length (range_runes s)
  /\ (List.length (printStr x y s) <= String.length s)%nat.
Proof.
  intros Hx Hb.
  assert (E : printStr x y s = cellsAt x y (range_runes s)).
  { unfold printStr, cellsAt.
    apply (printRunes_cells (range_runes s) x y 0 Hx). exact Hb. }
  assert (L : List.length (printStr x y s) = List.length (range_runes s)).
  { rewrite E. unfold cellsAt.
    rewrite length_map, length_combine, length_seq. apply Nat.min_id. }
  split; [exact E | split; [exact L|]].
  rewrite L. apply range_runes_length.
Qed.

Lemma printStr_one_column_per_rune_witness :
  printStr 3 2 "●é1"
  = [SetCell 3 2 bullet ColorDefault ColorDefault;
     SetCell 4 2 0xE9 ColorDefault ColorDefault;
     SetCell 5 2 (byte_val "1") ColorDefault ColorDefault].
Proof.
  apply (printStr_one_column_per_rune 3 2 "●é1"); vm_compute; [discriminate|].
  reflexivity.
Defined.

(** ** How a session ends *)

Lemma switchKey_return (st : State) (k : KeyCode) (s : string)
  (err : option error) :
  switchKey st k = Return s err -> k = KeyEnter /\ s = pin st /\ err = None.
Proof.
  unfold switchKey.
  repeat match goal with
  | |- (if ?c =? ?d then _ else _) = _ -> _ =>
    destruct (Z.eqb_spec c d)
  | |- (if ?c then _ else _) = _ -> _ => destruct c
  | |- match ?o with _ => _ end = _ -> _ => destruct o
  end; intros E; try discriminate.
  injection E as <- <-. auto.
Qed.

Lemma update_return (st : State) (event : Event) (s : string)
  (err : option error) :
  update st event = Return s err ->
  ends event = true
  /\ ((s = "" /\ err = Some ErrUserCancelledInput)
      \/ (s = pin st /\ err = None)).
Proof.
  unfold update, ends.
  destruct (EventType_eqb (Type' event) EventKey); simpl; [|discriminate].
  destruct ((Ch event =? rune_q) || (Key event =? KeyCtrlC)); simpl.
  - intros E. injection E as <- <-. auto.
  - destruct (switchKey st (Key event)) as [st' | s' err' |] eqn:Esw;
      intros E; try discriminate.
    injection E as <- <-.
    apply switchKey_return in Esw. destruct Esw as (Ek & Es & Ee).
    rewrite Ek. auto.
Qed.

Lemma update_ends (st : State) (event : Event) :
  ends event = true -> exists s err, update st event = Return s err.
Proof.
  unfold update, ends.
  destruct (EventType_eqb (Type' event) EventKey); simpl; [|discriminate].
  destruct ((Ch event =? rune_q) || (Key event =? KeyCtrlC)); simpl.
  - eauto.
  - intros Ek. apply Z.eqb_eq in Ek. rewrite Ek, switchKey_enter. eauto.
Qed.

Lemma update_goes_on (st : State) (event : Event) :
  inGrid st -> ends event = false -> exists st', update st event = Next st'.
Proof.
  intros Hin He.
  pose proof (update_no_panic st event Hin) as Hnp.
  destruct (update st event) as [st' | s err |] eqn:E.
  - eauto.
  - apply update_return in E. destruct E as [E _]. congruence.
  - congruence.
Qed.

Section Endings.

Variable prompt : string.

Lemma loop_blocked_iff (events : list Event) (st : State) :
  inGrid st ->
  snd (loop prompt st events) = Blocked <-> existsb ends events = false.
Proof.
  revert st. induction events as [|event rest IH]; intros st Hin.
  - split; reflexivity.
  - cbn [loop existsb]. cbv zeta.
    destruct (ends event) eqn:He.
    + destruct (update_ends st event He) as (s & err & E). rewrite E.
      split; discriminate.
    + destruct (update_goes_on st event Hin He) as (st' & E). rewrite E.
      specialize (IH st' (update_inGrid _ _ _ Hin E)).
      destruct (loop prompt st' rest) as [calls out]. exact IH.
Qed.

Lemma loop_result_shape (events : list Event) (st : State) :
  reachable st ->
  match snd (loop prompt st events) with
  | Returned s None => allDigits s = true /\ s = pin (final st events)
  | Returned s (Some err) => s = "" /\ err = ErrUserCancelledInput
  | Panicked => False
  | Blocked => True
  end.
Proof.
  revert st. induction events as [|event rest IH]; intros st Hr.
  - exact I.
  - cbn [loop final]. cbv zeta.
    pose proof (update_no_panic st event (reachable_inGrid st Hr)) as Hnp.
    destruct (update st event) as [st' | s err |] eqn:E.
    + specialize (IH st' (reach_next _ _ _ Hr E)).
      destruct (loop prompt st' rest) as [calls out]. exact IH.
    + apply update_return in E.
      destruct E as [_ [[-> ->] | [-> ->]]]; cbn [snd].
      * auto.
      * split; [now apply reachable_allDigits | reflexivity].
    + congruence.
Qed.

Lemma loop_ignores_rest (events post : list Event) (st : State) :
  snd (loop prompt st events) <> Blocked ->
  loop prompt st (events ++ post) = loop prompt st events.
Proof.
  revert st. induction events as [|event rest IH]; intros st Hnb.
  - contradiction Hnb. reflexivity.
  - cbn [loop app] in *. cbv zeta in *.
    destruct (update st event) as [st' | s err |]; try reflexivity.
    specialize (IH st').
    destruct (loop prompt st' rest) as [calls out].
    rewrite (IH Hnb). reflexivity.
Qed.

End Endings.

(** X4.  What [GetPIN] can return: with an error the string is empty, and
    after a successful [Init] the error is [ErrUserCancelledInput];
    without an error the string is the PIN in the state the loop was
    left in and holds only the digits 1 to 9.  A session never ends in a
    panic. *)
Theorem GetPIN_result_shape
  (prompt : string) (initErr : option error) (events : list Event) :
  match snd (GetPIN prompt initErr events) with
  | Returned s None =>
    initErr = None /\ allDigits s = true /\ s = pin (final initial events)
  | Returned s (Some err) =>
    s = "" /\ (initErr = Some err
               \/ (initErr = None /\ err = ErrUserCancelledInput))
  | Panicked => False
  | Blocked => initErr = None
  end.
Proof.
  destruct initErr as [err|].
  - cbn. auto.
  - rewrite GetPIN_outcome.
    pose proof (loop_result_shape prompt events initial reach_initial) as H.
    destruct (snd (loop prompt initial events)) as [s [err|] | |].
    + destruct H as [-> ->]. auto.
    + destruct H as [Hd Hs]. auto.
    + exact H.
    + reflexivity.
Qed.

(** X5.  After a successful [Init], [GetPIN] returns exactly when some
    event of the script is a key event that is the character q, Ctrl+C or
    Enter; on any other script it stays in the loop, waiting for the next
    event. *)
Theorem GetPIN_returns_iff_ended (prompt : string) (events : list Event) :
  snd (GetPIN prompt None events) = Blocked
  <-> existsb ends events = false.
Proof.
  rewrite GetPIN_outcome. apply loop_blocked_iff, initial_inGrid.
Qed.

(** X6.  Once [GetPIN] has been left, the events that follow are not
    read: the calls made and the result are those of the script cut after
    the event that ended the session. *)
Theorem GetPIN_ignores_later_events
  (prompt : string) (initErr : option error) (events post : list Event) :
  snd (GetPIN prompt initErr events) <> Blocked ->
  GetPIN prompt initErr (events ++ post) = GetPIN prompt initErr events.
Proof.
  destruct initErr as [err|]; [reflexivity|].
  rewrite GetPIN_outcome. intros Hnb. unfold GetPIN.
  now rewrite (loop_ignores_rest prompt events post initial Hnb).
Qed.

Lemma GetPIN_ignores_later_events_witness :
  GetPIN "Enter PIN:" None
         ([press KeySpace; press KeyEnter] ++ [press KeySpace; press KeyEnter])
  = GetPIN "Enter PIN:" None [press KeySpace; press KeyEnter].
Proof.
  apply (GetPIN_ignores_later_events "Enter PIN:" None
           [press KeySpace; press KeyEnter]
           [press KeySpace; press KeyEnter]).
  vm_compute. discriminate.
Defined.

(** ** The trace of a session *)

Lemma count_app (p : Call -> bool) (a b : list Call) :
  count p (a ++ b) = (count p a + count p b)%nat.
Proof. unfold count. now rewrite filter_app, length_app. Qed.

Lemma count_printRunes (p : Call -> bool) (x y i : int) (rs : list rune) :
  (forall col row r fg bg, p (SetCell col row r fg bg) = false) ->
  count p (printRunes x y i rs) = 0%nat.
Proof.
  intros Hp. unfold count. revert i.
  induction rs as [|r rs IH]; intros i; cbn [printRunes filter];
    [reflexivity|].
  rewrite Hp. apply IH.
Qed.

Lemma polled_app (a b : list Call) :
  polled (a ++ b) = (polled a ++ polled b)%list.
Proof.
  induction a as [|c a IH]; [reflexivity|].
  destruct c; cbn [polled app]; rewrite IH; reflexivity.
Qed.

Lemma polled_printRunes (x y i : int) (rs : list rune) :
  polled (printRunes x y i rs) = [].
Proof.
  revert i. induction rs as [|r rs IH]; intros i; cbn [printRunes polled];
    auto.
Qed.

Section Traces.

Variable prompt : string.

Lemma render_counts (st : State) :
  count isClear (render prompt st) = 1%nat
  /\ count isFlush (render prompt st) = 1%nat
  /\ polled (render prompt st) = [].
Proof.
  unfold render, printStr. repeat split.
  - rewrite !count_app, !count_printRunes by reflexivity. reflexivity.
  - rewrite !count_app, !count_printRunes by reflexivity. reflexivity.
  - rewrite !polled_app, !polled_printRunes. reflexivity.
Qed.

Lemma loop_trace_counts (events : list Event) (st : State) :
  exists rest,
    events = (polled (fst (loop prompt st events)) ++ rest)%list
    /\ (snd (loop prompt st events) = Blocked -> rest = [])
    /\ count isClear (fst (loop prompt st events))
       = count isFlush (fst (loop prompt st events))
    /\ count isFlush (fst (loop prompt st events))
       = (List.length (polled (fst (loop prompt st events)))
          + match snd (loop prompt st events) with
            | Blocked => 1
            | _ => 0
            end)%nat.
Proof.
  revert st. induction events as [|event rest IH]; intros st;
    destruct (render_counts st) as (Hc & Hf & Hp).
  - exists []. cbn [loop fst snd]. rewrite Hc, Hf, Hp. auto.
  - cbn [loop]. cbv zeta.
    assert (Fc : count isClear (render prompt st ++ [PollEvent event])
                 = 1%nat) by (rewrite count_app, Hc; reflexivity).
    assert (Ff : count isFlush (render prompt st ++ [PollEvent event])
                 = 1%nat) by (rewrite count_app, Hf; reflexivity).
    assert (Fp : polled (render prompt st ++ [PollEvent event]) = [event])
      by (rewrite polled_app, Hp; reflexivity).
    destruct (update st event) as [st' | s err |].
    + destruct (IH st') as (rest' & E & Hb & Hcf & Hfl).
      destruct (loop prompt st' rest) as [calls out]. cbn [fst snd] in *.
      exists rest'.
      rewrite !(count_app _ (render prompt st ++ [PollEvent event])),
              (polled_app (render prompt st ++ [PollEvent event])),
              Fc, Ff, Fp, Hcf, Hfl.
      cbn [app List.length]. rewrite <- E. auto.
    + exists rest. cbn [fst snd]. rewrite Fc, Ff, Fp.
      repeat split; auto; discriminate.
    + exists rest. cbn [fst snd]. rewrite Fc, Ff, Fp.
      repeat split; auto; discriminate.
Qed.

(** A property of calls that holds for every frame painted in the grid
    and for every poll holds along the whole loop. *)
Lemma loop_trace_Forall (P : Call -> Prop) (events : list Event)
  (st : State) :
  (forall s, inGrid s -> Forall P (render prompt s)) ->
  (forall e, P (PollEvent e)) ->
  inGrid st -> Forall P (fst (loop prompt st events)).
Proof.
  intros Hrender Hpoll. revert st.
  induction events as [|event rest IH]; intros st Hin.
  - now apply Hrender.
  - cbn [loop]. cbv zeta.
    assert (Hf : Forall P (render prompt st ++ [PollEvent event])).
    { apply Forall_app. split; [now apply Hrender|].
      constructor; [apply Hpoll | constructor]. }
    destruct (update st event) as [st' | s err |] eqn:E; try exact Hf.
    specialize (IH st' (update_inGrid _ _ _ Hin E)).
    destruct (loop prompt st' rest) as [calls out]. cbn [fst] in *.
    apply Forall_app. split; assumption.
Qed.

Lemma keypad_cells_drawn (st : State) (c : Call) :
  In c (printStr 3 2 "●●●" ++ printStr 3 3 "●●●" ++ printStr 3 4 "●●●") ->
  In c (render prompt st).
Proof.
  intros H. unfold render.
  do 2 (apply in_or_app; right).
  rewrite !in_app_iff in *. tauto.
Qed.

Lemma cursor_on_glyph (st : State) :
  inGrid st ->
  In (SetCursor (cursorX st + 3) (cursorY st + 2)) (render prompt st)
  /\ In (SetCell (cursorX st + 3) (cursorY st + 2) bullet
                 ColorDefault ColorDefault)
        (render prompt st).
Proof.
  intros [Hx Hy]. split.
  - unfold render. do 11 (apply in_or_app; right). left.
    unfold int_add. rewrite !wrap_int_small by lia. reflexivity.
  - apply keypad_cells_drawn.
    grid_cases (cursorX st); grid_cases (cursorY st);
      vm_compute; repeat first [left; reflexivity | right].
Qed.

Lemma render_cursor_bounds (st : State) :
  inGrid st ->
  Forall (fun c => match c with
                   | SetCursor x y => 3 <= x <= 5 /\ 2 <= y <= 4
                   | _ => True
                   end)
         (render prompt st).
Proof.
  intros [Hx Hy]. unfold render, printStr.
  repeat (apply Forall_app; split);
    try (eapply Forall_impl; [|apply printRunes_runes];
         intros c (col & r & -> & _); exact I).
  - repeat constructor.
  - constructor; [|repeat constructor].
    unfold int_add. rewrite !wrap_int_small by lia. lia.
Qed.

End Traces.

(** *** The order of the calls *)

Lemma follows_app (ph : Phase) (a b : list Call) :
  follows ph (a ++ b)
  = match follows ph a with
    | Some ph' => follows ph' b
    | None => None
    end.
Proof.
  revert ph. induction a as [|c a IH]; intros ph; [reflexivity|].
  cbn [app follows]. destruct (advance ph c); [apply IH | reflexivity].
Qed.

Lemma follows_printRunes (x y i : int) (rs : list rune) :
  follows Drawing (printRunes x y i rs) = Some Drawing.
Proof.
  revert i. induction rs as [|r rs IH]; intros i; [reflexivity|].
  cbn [printRunes follows advance]. apply IH.
Qed.

Lemma follows_render (prompt : string) (st : State) :
  follows Idle (render prompt st) = Some Flushed.
Proof.
  unfold render, printStr. cbn [app follows advance].
  repeat (rewrite follows_app, follows_printRunes; cbv beta iota).
  reflexivity.
Qed.

Lemma follows_iteration (prompt : string) (st : State) (event : Event) :
  follows Idle (render prompt st ++ [PollEvent event]) = Some Idle.
Proof. rewrite follows_app, follows_render. reflexivity. Qed.

Lemma follows_loop (prompt : string) (events : list Event) (st : State) :
  follows Idle (fst (loop prompt st events))
  = Some match snd (loop prompt st events) with
         | Blocked => Flushed
         | _ => Idle
         end.
Proof.
  revert st. induction events as [|event rest IH]; intros st.
  - apply follows_render.
  - cbn [loop]. cbv zeta.
    pose proof (follows_iteration prompt st event) as Hit.
    destruct (update st event) as [st' | s err |]; try exact Hit.
    specialize (IH st'). destruct (loop prompt st' rest) as [calls out].
    cbn [fst snd] in *. rewrite follows_app, Hit. exact IH.
Qed.

(** X7.  The trace of a session that acquired the terminal keeps to this
    order: [Init]; then, per iteration, [Clear], the cells, [SetCursor],
    [Flush] and only then [PollEvent], so that exactly one whole frame is
    flushed before each poll; [Close] comes right after the last poll and
    ends the trace, and while the loop waits the trace ends on a [Flush].
    The events polled are an initial part of the script, in order, and all
    of it while the loop waits; there are as many [Clear] as [Flush], one
    per poll and one more while the loop waits. *)
Theorem one_frame_per_poll (prompt : string) (events : list Event) :
  follows Start (fst (GetPIN prompt None events))
  = Some match snd (GetPIN prompt None events) with
         | Blocked => Flushed
         | _ => Closed
         end
  /\ exists rest,
    events = (polled (fst (GetPIN prompt None events)) ++ rest)%list
    /\ (snd (GetPIN prompt None events) = Blocked -> rest = [])
    /\ count isClear (fst (GetPIN prompt None events))
       = count isFlush (fst (GetPIN prompt None events))
    /\ count isFlush (fst (GetPIN prompt None events))
       = (List.length (polled (fst (GetPIN prompt None events)))
          + match snd (GetPIN prompt None events) with
            | Blocked => 1
            | _ => 0
            end)%nat.
Proof.
  destruct (loop_trace_counts prompt events initial)
    as (rest & E & Hb & Hcf & Hfl).
  pose proof (follows_loop prompt events initial) as Hfo.
  unfold GetPIN. destruct (loop prompt initial events) as [calls out].
  cbn [fst snd] in *. split.
  - cbn [follows advance]. rewrite follows_app, Hfo.
    destruct out; reflexivity.
  - exists rest.
    change (Init :: calls ++ deferred out)%list
      with ([Init] ++ calls ++ deferred out)%list.
    rewrite !count_app, !polled_app.
    assert (D : polled (deferred out) = []
                /\ count isClear (deferred out) = 0%nat
                /\ count isFlush (deferred out) = 0%nat)
      by (destruct out; repeat split; reflexivity).
    destruct D as (D1 & D2 & D3). rewrite D1, D2, D3.
    cbn [polled app]. rewrite app_nil_r.
    change (count isClear [Init]) with 0%nat.
    change (count isFlush [Init]) with 0%nat.
    rewrite !Nat.add_0_r. cbn [Nat.add]. auto.
Qed.

(** X8.  In every frame of a session the terminal cursor is put on the
    keypad cell of the logical cursor, three columns and two rows off,
    where a filled circle is drawn; so every [SetCursor] of the session
    has its column in [3,5] and its row in [2,4]. *)
Theorem cursor_shown_on_keypad (prompt : string) (events : list Event) :
  Forall (fun st =>
            In (SetCursor (cursorX st + 3) (cursorY st + 2))
               (render prompt st)
            /\ In (SetCell (cursorX st + 3) (cursorY st + 2) bullet
                           ColorDefault ColorDefault)
                  (render prompt st))
         (visited initial events)
  /\ Forall (fun c => match c with
                      | SetCursor x y => 3 <= x <= 5 /\ 2 <= y <= 4
                      | _ => True
                      end)
            (fst (GetPIN prompt None events)).
Proof.
  split.
  - eapply Forall_impl; [|apply (visited_inGrid events initial initial_inGrid)].
    intros st Hin. now apply cursor_on_glyph.
  - pose proof (loop_trace_Forall prompt
                  (fun c => match c with
                            | SetCursor x y => 3 <= x <= 5 /\ 2 <= y <= 4
                            | _ => True
                            end)
                  events initial (render_cursor_bounds prompt)
                  (fun _ => I) initial_inGrid) as H.
    unfold GetPIN. destruct (loop prompt initial events) as [calls out].
    cbn [fst] in *. constructor; [exact I|].
    apply Forall_app. split; [exact H|].
    destruct out; repeat constructor.
Qed.

(** ** The PIN field, for any content *)



(** ** One step, seen from outside *)

Lemma switchKey_cases (st : State) (k : KeyCode) :
  (exists d, k = arrowKey d)
  \/ k = KeySpace
  \/ (k = KeyBackspace \/ k = KeyBackspace2)
  \/ k = KeyEnter
  \/ switchKey st k = Next st.
Proof.
  destruct (Z.eqb_spec k KeyArrowUp); [left; now exists Up|].
  destruct (Z.eqb_spec k KeyArrowDown); [left; now exists Down|].
  destruct (Z.eqb_spec k KeyArrowLeft); [left; now exists Left|].
  destruct (Z.eqb_spec k KeyArrowRight); [left; now exists Right|].
  destruct (Z.eqb_spec k KeySpace); [tauto|].
  destruct (Z.eqb_spec k KeyBackspace); [tauto|].
  destruct (Z.eqb_spec k KeyBackspace2); [tauto|].
  destruct (Z.eqb_spec k KeyEnter); [tauto|].
  do 4 right. unfold switchKey.
  repeat match goal with
  | H : ?a <> ?b |- context [?a =? ?b] =>
    rewrite (proj2 (Z.eqb_neq a b) H)
  end.
  reflexivity.
Qed.

(** X9.  A step that goes on from a state with the cursor in the grid
    changes at most one thing: it leaves the state as it is, or moves the
    cursor by exactly one cell along one axis and keeps the PIN, or keeps
    the cursor and appends the digit of its cell, or keeps the cursor and
    drops the last byte of a non-empty PIN. *)
Theorem step_changes_one_thing (st st' : State) (event : Event) :
  inGrid st -> update st event = Next st' -> Change st st'.
Proof.
  intros Hin Hup. unfold update in Hup.
  destruct (negb (EventType_eqb (Type' event) EventKey)).
  { injection Hup as <-. now apply Unchanged. }
  destruct ((Ch event =? rune_q) || (Key event =? KeyCtrlC));
    [discriminate|].
  destruct (switchKey st (Key event)) as [s | |] eqn:Esw;
    try discriminate.
  injection Hup as <-.
  destruct (switchKey_cases st (Key event))
    as [[d Ek] | [Ek | [Ek | [Ek | Ek]]]].
  - rewrite Ek, switchKey_arrow in Esw. injection Esw as <-.
    destruct st as [x y p]. destruct Hin as [Hx Hy]. simpl in Hx, Hy.
    grid_cases x; grid_cases y; destruct d;
      first [ apply Unchanged; reflexivity
            | apply Moved; reflexivity ].
  - rewrite Ek, (switchKey_space st Hin) in Esw. injection Esw as <-.
    destruct Hin as [Hx Hy].
    apply Appended; simpl; rewrite ?clamp_fixed by assumption; reflexivity.
  - rewrite (switchKey_backspace st _ Ek) in Esw.
    destruct Hin as [Hx Hy].
    destruct (string_snoc (pin st)) as [E | (p & a & E)]; rewrite E in Esw.
    + simpl in Esw. injection Esw as <-.
      apply Unchanged. now apply clamped_fixed.
    + rewrite len_nonempty, slice_drops_last in Esw. injection Esw as <-.
      apply Dropped; simpl; rewrite ?clamp_fixed by assumption;
        try reflexivity.
      * rewrite E. destruct p; discriminate.
      * rewrite E, dropLast_snoc. reflexivity.
  - rewrite Ek, switchKey_enter in Esw. discriminate.
  - rewrite Ek in Esw. injection Esw as <-.
    apply Unchanged. now apply clamped_fixed.
Qed.

Lemma step_changes_one_thing_witness :
  Change {| cursorX := 2; cursorY := 1; pin := "6" |}
         {| cursorX := 2; cursorY := 0; pin := "6" |}.
Proof.
  apply (step_changes_one_thing
           {| cursorX := 2; cursorY := 1; pin := "6" |}
           {| cursorX := 2; cursorY := 0; pin := "6" |}
           (press KeyArrowUp)).
  - split; simpl; lia.
  - reflexivity.
Defined.

(** ** The edges of the grid *)

(** X10.  With the cursor in the grid, an arrow key leaves the state as it
    is exactly when the cursor is on the edge the arrow points to; when it
    is not, the arrow moves the cursor and the opposite arrow brings the
    state back. *)
Theorem arrow_blocked_at_edge
  (st : State) (event back : Event) (d : Direction) :
  inGrid st ->
  keyPress event (arrowKey d) ->
  keyPress back (arrowKey (opposite d)) ->
  (update st event = Next st <-> atEdge st d)
  /\ (~ atEdge st d ->
      exists st', update st event = Next st'
                  /\ st' <> st
                  /\ update st' back = Next st).
Proof.
  intros [Hx Hy] Hev Hback.
  rewrite (update_arrow st event d Hev).
  destruct st as [x y p]. simpl in Hx, Hy.
  split.
  - grid_cases x; grid_cases y; destruct d; vm_compute;
      split; intros H; congruence.
  - intros Hne. eexists. split; [reflexivity|].
    rewrite (update_arrow _ back (opposite d) Hback).
    grid_cases x; grid_cases y; destruct d;
      first [ exfalso; apply Hne; reflexivity
            | split; [vm_compute; congruence | reflexivity] ].
Qed.

Lemma arrow_blocked_at_edge_witness :
  (update {| cursorX := 0; cursorY := 1; pin := "4" |} (press KeyArrowLeft)
   = Next {| cursorX := 0; cursorY := 1; pin := "4" |}
   <-> atEdge {| cursorX := 0; cursorY := 1; pin := "4" |} Left)
  /\ (~ atEdge {| cursorX := 0; cursorY := 1; pin := "4" |} Right ->
      exists st',
        update {| cursorX := 0; cursorY := 1; pin := "4" |}
               (press KeyArrowRight) = Next st'
        /\ st' <> {| cursorX := 0; cursorY := 1; pin := "4" |}
        /\ update st' (press KeyArrowLeft)
           = Next {| cursorX := 0; cursorY := 1; pin := "4" |}).
Proof.
  split.
  - apply (arrow_blocked_at_edge
             {| cursorX := 0; cursorY := 1; pin := "4" |}
             (press KeyArrowLeft) (press KeyArrowRight) Left).
    + split; simpl; lia.
    + pressed.
    + pressed.
  - apply (arrow_blocked_at_edge
             {| cursorX := 0; cursorY := 1; pin := "4" |}
             (press KeyArrowRight) (press KeyArrowLeft) Right).
    + split; simpl; lia.
    + pressed.
    + pressed.
Defined.

(** ** Running on without leaving *)

Lemma final_app (a b : list Event) (st : State) :
  inGrid st -> existsb ends a = false ->
  final st (a ++ b) = final (final st a) b /\ inGrid (final st a).
Proof.
  revert st. induction a as [|event a IH]; intros st Hin Hends.
  - split; [reflexivity | exact Hin].
  - cbn [existsb] in Hends. apply orb_false_iff in Hends.
    destruct Hends as [He Ha].
    destruct (update_goes_on st event Hin He) as (st' & E).
    cbn [final app]. rewrite E.
    apply IH; [exact (update_inGrid _ _ _ Hin E) | exact Ha].
Qed.

Lemma keyPress_goes_on (event : Event) (k : KeyCode) :
  keyPress event k -> k <> KeyCtrlC -> k <> KeyEnter -> ends event = false.
Proof.
  intros (Hty & Hch & Hk) H1 H2. unfold ends. subst k.
  apply Z.eqb_neq in Hch, H1, H2. rewrite Hch, H1, H2.
  apply andb_false_r.
Qed.

(** ** Every PIN of digits can be entered *)

Lemma isDigit_cases (a : ascii) :
  isDigit a = true ->
  In a ["1"; "2"; "3"; "4"; "5"; "6"; "7"; "8"; "9"]%char.
Proof.
  destruct a as [[] [] [] [] [] [] [] []]; intros H;
    first [ discriminate H
          | cbn [In]; repeat first [left; reflexivity | right] ].
Qed.

Lemma strokes_enter_digit (a : ascii) (st : State) :
  isDigit a = true -> inGrid st ->
  existsb ends (strokes a) = false
  /\ final st (strokes a)
     = {| cursorX := snd (cellOf a); cursorY := fst (cellOf a);
          pin := pin st ++ String a "" |}.
Proof.
  intros Ha [Hx Hy]. destruct st as [x y p]. simpl in Hx, Hy.
  apply isDigit_cases in Ha. cbn [In] in Ha.
  split.
  - repeat (destruct Ha as [<- | Ha]; [reflexivity|]). contradiction.
  - grid_cases x; grid_cases y;
      repeat (destruct Ha as [<- | Ha]; [reflexivity|]); contradiction.
Qed.

Lemma keystrokes_enter_pin (s : string) (st : State) :
  allDigits s = true -> inGrid st ->
  existsb ends (keystrokes s) = false
  /\ inGrid (final st (keystrokes s))
  /\ pin (final st (keystrokes s)) = pin st ++ s.
Proof.
  revert st. induction s as [|a s IH]; intros st Hd Hin.
  - cbn [keystrokes existsb final].
    repeat split; try apply Hin.
    clear. induction (pin st) as [|b q IHq]; [reflexivity|].
    simpl. now rewrite <- IHq.
  - cbn [allDigits] in Hd. apply andb_prop in Hd. destruct Hd as [Ha Hs].
    destruct (strokes_enter_digit a st Ha Hin) as [He Hf].
    destruct (final_app (strokes a) (keystrokes s) st Hin He) as [Hfa Hg].
    destruct (IH (final st (strokes a)) Hs Hg) as (He' & Hin' & Hp).
    cbn [keystrokes]. rewrite existsb_app, He, He', Hfa.
    split; [reflexivity | split; [exact Hin'|]].
    rewrite Hp, Hf. cbn [pin].
    clear. induction (pin st) as [|b q IHq]; [reflexivity|].
    simpl. now rewrite IHq.
Qed.

(** X11.  Every string of the digits 1 to 9 is a PIN the user can enter:
    going, for each digit, to the top-left corner, down and right to the
    digit's cell and pressing space, then Enter, makes [GetPIN] return
    exactly that string with no error. *)
Theorem every_digit_string_can_be_entered (prompt : string) (s : string) :
  allDigits s = true ->
  snd (GetPIN prompt None (keystrokes s ++ [press KeyEnter]))
  = Returned s None.
Proof.
  intros Hd.
  destruct (keystrokes_enter_pin s initial Hd initial_inGrid)
    as (He & Hin & Hp).
  rewrite GetPIN_outcome.
  rewrite (loop_resume prompt (keystrokes s) [press KeyEnter] initial)
    by (apply loop_blocked_iff; [apply initial_inGrid | exact He]).
  cbn [loop]. cbv zeta.
  rewrite (update_keyPress _ (press KeyEnter) KeyEnter)
    by (try discriminate; pressed).
  rewrite switchKey_enter, Hp. reflexivity.
Qed.

Lemma every_digit_string_can_be_entered_witness :
  snd (GetPIN "Enter PIN:" None (keystrokes "1937" ++ [press KeyEnter]))
  = Returned "1937" None.
Proof.
  apply (every_digit_string_can_be_entered "Enter PIN:" "1937").
  reflexivity.
Defined.

(** ** Selecting and deleting as a stack *)

Lemma nbytes_snoc (n : nat) (a : ascii) :
  nbytes (S n) a = nbytes n a ++ String a "".
Proof.
  induction n as [|n IH]; [reflexivity|].
  cbn [nbytes append] in *. f_equal. exact IH.
Qed.

Lemma append_assoc (s t u : string) : (s ++ t) ++ u = s ++ (t ++ u).
Proof. induction s as [|a s IH]; simpl; [reflexivity | now rewrite IH]. Qed.

Lemma selects_append (n : nat) (select : Event) (st : State) (a : ascii) :
  inGrid st -> keyPress select KeySpace ->
  tableDigit (cursorY st) (cursorX st) = String a "" ->
  final st (repeat select n)
  = {| cursorX := cursorX st; cursorY := cursorY st;
       pin := pin st ++ nbytes n a |}.
Proof.
  intros Hin Hsel Ha. revert st Hin Ha.
  induction n as [|n IH]; intros st Hin Ha.
  - cbn [repeat final nbytes]. destruct st as [x y p]. cbn. f_equal.
    clear. induction p as [|b q IHq]; [reflexivity|].
    simpl. now rewrite <- IHq.
  - cbn [repeat final].
    rewrite (update_keyPress st select KeySpace Hsel) by discriminate.
    rewrite (switchKey_space st Hin), Ha. cbn [cursorX cursorY pin].
    destruct Hin as [Hx Hy]. rewrite !clamp_fixed by assumption.
    rewrite IH; [|split; assumption | exact Ha].
    cbn [cursorX cursorY pin]. rewrite append_assoc. reflexivity.
Qed.

Lemma deletes_drop (n : nat) (delete : Event) (x y : int) (p : string)
  (a : ascii) :
  0 <= x <= 2 -> 0 <= y <= 2 ->
  keyPress delete KeyBackspace \/ keyPress delete KeyBackspace2 ->
  final {| cursorX := x; cursorY := y; pin := p ++ nbytes n a |}
        (repeat delete n)
  = {| cursorX := x; cursorY := y; pin := p |}.
Proof.
  intros Hx Hy Hdel. induction n as [|n IH].
  - cbn [repeat final nbytes]. f_equal.
    clear. induction p as [|b q IHq]; [reflexivity|].
    simpl. now rewrite IHq.
  - cbn [repeat final]. rewrite (update_backspace _ delete Hdel).
    cbn [cursorX cursorY pin]. rewrite !clamp_fixed by assumption.
    rewrite nbytes_snoc, <- append_assoc, dropLast_snoc. exact IH.
Qed.

(** X12.  Selecting and deleting work as a stack: from a state with the
    cursor in the grid, n selects followed by n deletes leave the loop
    running in the state it started from. *)
Theorem deletes_undo_selects
  (n : nat) (st : State) (select delete : Event) :
  inGrid st ->
  keyPress select KeySpace ->
  keyPress delete KeyBackspace \/ keyPress delete KeyBackspace2 ->
  existsb ends (repeat select n ++ repeat delete n) = false
  /\ final st (repeat select n ++ repeat delete n) = st.
Proof.
  intros Hin Hsel Hdel.
  assert (Es : ends select = false)
    by (apply (keyPress_goes_on select KeySpace Hsel); discriminate).
  assert (Ed : ends delete = false)
    by (destruct Hdel as [H | H];
        [apply (keyPress_goes_on delete KeyBackspace H)
        |apply (keyPress_goes_on delete KeyBackspace2 H)]; discriminate).
  assert (Rs : forall k, existsb ends (repeat select k) = false)
    by (induction k; cbn [repeat existsb]; [|rewrite Es]; auto).
  assert (Rd : forall k, existsb ends (repeat delete k) = false)
    by (induction k; cbn [repeat existsb]; [|rewrite Ed]; auto).
  split; [now rewrite existsb_app, Rs, Rd|].
  destruct (final_app (repeat select n) (repeat delete n) st Hin (Rs n))
    as [-> _].
  destruct Hin as [Hx Hy].
  assert (Ha : exists a, tableDigit (cursorY st) (cursorX st) = String a "")
    by (grid_cases (cursorY st); grid_cases (cursorX st);
        eexists; reflexivity).
  destruct Ha as [a Ha].
  rewrite (selects_append n select st a (conj Hx Hy) Hsel Ha).
  rewrite (deletes_drop n delete _ _ _ a Hx Hy Hdel).
  destruct st; reflexivity.
Qed.

Lemma deletes_undo_selects_witness :
  final {| cursorX := 2; cursorY := 2; pin := "12" |}
        (repeat (press KeySpace) 3 ++ repeat (press KeyBackspace2) 3)
  = {| cursorX := 2; cursorY := 2; pin := "12" |}.
Proof.
  apply (deletes_undo_selects 3
           {| cursorX := 2; cursorY := 2; pin := "12" |}
           (press KeySpace) (press KeyBackspace2)).
  - split; simpl; lia.
  - pressed.
  - right. pressed.
Defined.

(** ** The program of example.go *)

Lemma append_empty_r (s : string) : s ++ "" = s.
Proof. induction s as [|a s IH]; simpl; [reflexivity | now rewrite IH]. Qed.

Lemma written_terminal (stream : Stream) (calls : list Call)
  (tail : list Effect) :
  written stream (map Terminal calls ++ tail) = written stream tail.
Proof. induction calls as [|c calls IH]; [reflexivity | exact IH]. Qed.

Lemma status_terminal (calls : list Call) (tail : list Effect) :
  status (map Terminal calls ++ tail) = status tail.
Proof. induction calls as [|c calls IH]; [reflexivity | exact IH]. Qed.

Lemma main_unfold (initErr : option error) (events : list Event) :
  main initErr events
  = (map Terminal (fst (GetPIN "Enter PIN:" initErr events))
       ++ afterGetPIN (snd (GetPIN "Enter PIN:" initErr events)))%list.
Proof.
  unfold main. destruct (GetPIN "Enter PIN:" initErr events) as [calls out].
  reflexivity.
Qed.

Lemma session_outcome (prompt : string) (pre post : list Event)
  (event : Event) :
  existsb ends pre = false ->
  snd (GetPIN prompt None (pre ++ event :: post))
  = match update (final initial pre) event with
    | Next st' => snd (loop prompt st' post)
    | Return s err => Returned s err
    | Panic => Panicked
    end.
Proof.
  intros Hpre. rewrite GetPIN_outcome.
  rewrite (loop_resume prompt pre (event :: post) initial)
    by (apply loop_blocked_iff; [apply initial_inGrid | exact Hpre]).
  cbn [loop]. cbv zeta.
  destruct (update (final initial pre) event) as [st' | s err |];
    try reflexivity.
  destruct (loop prompt st' post). reflexivity.
Qed.

Lemma session_outcome_cases (prompt : string) (events : list Event) :
  (snd (GetPIN prompt None events) = Blocked
   /\ existsb ends events = false)
  \/ snd (GetPIN prompt None events)
     = Returned "" (Some ErrUserCancelledInput)
  \/ exists s, allDigits s = true
               /\ snd (GetPIN prompt None events) = Returned s None.
Proof.
  rewrite GetPIN_outcome.
  pose proof (loop_result_shape prompt events initial reach_initial) as H.
  pose proof (loop_blocked_iff prompt events initial initial_inGrid) as Hb.
  destruct (snd (loop prompt initial events)) as [s [err|] | |].
  - destruct H as [-> ->]. auto.
  - destruct H as [Hd _]. right; right. eauto.
  - contradiction.
  - left. split; [reflexivity | now apply Hb].
Qed.

(** X13.  When the user cancels -- the first event that ends the session
    is the character q or Ctrl+C -- the program ends with status 1, has
    written the line "user cancelled PIN entry" to the standard error and
    nothing to the standard output, whatever digits had been selected. *)
Theorem main_cancelled_prints_no_pin
  (pre post : list Event) (event : Event) :
  existsb ends pre = false -> quitPress event ->
  status (main None (pre ++ event :: post)) = Some 1
  /\ written Stdout (main None (pre ++ event :: post)) = ""
  /\ written Stderr (main None (pre ++ event :: post))
     = "user cancelled PIN entry" ++ newline.
Proof.
  intros Hpre Hq. rewrite main_unfold.
  rewrite (session_outcome "Enter PIN:" pre post event Hpre).
  rewrite (update_quit _ event Hq).
  rewrite status_terminal, !written_terminal. repeat split.
Qed.

Lemma main_cancelled_prints_no_pin_witness :
  status (main None ([press KeySpace; press KeyArrowUp; press KeySpace]
                       ++ mkEvent EventKey 0 rune_q :: []))
  = Some 1
  /\ written Stdout
       (main None ([press KeySpace; press KeyArrowUp; press KeySpace]
                     ++ mkEvent EventKey 0 rune_q :: []))
     = ""
  /\ written Stderr
       (main None ([press KeySpace; press KeyArrowUp; press KeySpace]
                     ++ mkEvent EventKey 0 rune_q :: []))
     = "user cancelled PIN entry" ++ newline.
Proof.
  apply (main_cancelled_prints_no_pin
           [press KeySpace; press KeyArrowUp; press KeySpace] []
           (mkEvent EventKey 0 rune_q)).
  - reflexivity.
  - split; [reflexivity | left; reflexivity].
Defined.

(** X14.  When the user submits -- the first event that ends the session
    is Enter -- the program ends with status 0, has written nothing to the
    standard error, and has written to the standard output one line: the
    text "Success! Scrambled PIN input:", a space, and the PIN accumulated
    up to then, which holds digits 1 to 9 only. *)
Theorem main_submitted_prints_pin
  (pre post : list Event) (event : Event) :
  existsb ends pre = false -> keyPress event KeyEnter ->
  status (main None (pre ++ event :: post)) = Some 0
  /\ written Stderr (main None (pre ++ event :: post)) = ""
  /\ written Stdout (main None (pre ++ event :: post))
     = "Success! Scrambled PIN input: " ++ pin (final initial pre) ++ newline
  /\ allDigits (pin (final initial pre)) = true.
Proof.
  intros Hpre Hev. rewrite main_unfold.
  rewrite (session_outcome "Enter PIN:" pre post event Hpre).
  rewrite (update_keyPress _ event KeyEnter Hev) by discriminate.
  rewrite switchKey_enter.
  rewrite status_terminal, !written_terminal.
  split; [reflexivity | split; [reflexivity | split]].
  - cbn [afterGetPIN written Sprintln]. rewrite append_empty_r. reflexivity.
  - apply reachable_allDigits, final_reachable, reach_initial.
Qed.

Lemma main_submitted_prints_pin_witness :
  written Stdout
    (main None ([press KeySpace; press KeyArrowUp; press KeySpace]
                  ++ press KeyEnter :: []))
  = "Success! Scrambled PIN input: 58" ++ newline.
Proof.
  apply (main_submitted_prints_pin
           [press KeySpace; press KeyArrowUp; press KeySpace] []
           (press KeyEnter)).
  - reflexivity.
  - pressed.
Defined.

(** X15.  Whatever [termbox.Init] answers and whatever events arrive, the
    program never crashes; while it has not ended it has written nothing;
    it ends with status 0 or 1 only; with status 0 the standard error is
    empty and the standard output is the success line with a PIN of
    digits 1 to 9; with status 1 the standard output is empty and the
    standard error is the line of the error. *)
Theorem main_exit_and_streams (initErr : option error)
  (events : list Event) :
  ~ In Crash (main initErr events)
  /\ match status (main initErr events) with
     | None =>
       initErr = None /\ existsb ends events = false
       /\ written Stdout (main initErr events) = ""
       /\ written Stderr (main initErr events) = ""
     | Some code =>
       (code = 0
        /\ written Stderr (main initErr events) = ""
        /\ exists pin,
             allDigits pin = true
             /\ written Stdout (main initErr events)
                = "Success! Scrambled PIN input: " ++ pin ++ newline)
       \/ (code = 1
           /\ written Stdout (main initErr events) = ""
           /\ exists err,
                written Stderr (main initErr events) = Error err ++ newline)
     end.
Proof.
  rewrite main_unfold, status_terminal, !written_terminal.
  assert (Hnc : forall calls tail,
             ~ In Crash tail -> ~ In Crash (map Terminal calls ++ tail)).
  { intros calls tail Ht Hin. apply in_app_or in Hin.
    destruct Hin as [Hin | Hin]; [|now apply Ht].
    apply in_map_iff in Hin. destruct Hin as (c & E & _). discriminate. }
  destruct initErr as [err|].
  - cbn [GetPIN fst snd afterGetPIN status written Sprintln].
    split.
    + apply Hnc. cbn [In]. intros [H | [H | H]]; try discriminate H.
      exact H.
    + right. split; [reflexivity | split; [reflexivity|]].
      exists err. now rewrite append_empty_r.
  - destruct (session_outcome_cases "Enter PIN:" events)
      as [[-> Hb] | [-> | (s & Hd & ->)]];
      cbn [afterGetPIN status written Sprintln Error].
    + split; [apply Hnc; intros []|]. auto.
    + split.
      * apply Hnc. cbn [In]. intros [H | [H | H]]; try discriminate H.
        exact H.
      * right. split; [reflexivity | split; [reflexivity|]].
        exists ErrUserCancelledInput. now rewrite append_empty_r.
    + split.
      * apply Hnc. cbn [In]. intros [H | [H | H]]; try discriminate H.
        exact H.
      * left. split; [reflexivity | split; [reflexivity|]].
        exists s. split; [exact Hd|]. now rewrite append_empty_r.
Qed.

(** X16.  The terminal is given back before the program prints: when
    [Init] succeeded and the program has written or ended, its effects are
    the terminal calls of the session, of which the last is [Close],
    followed by one write and the exit, with no terminal call after. *)
Theorem main_prints_after_release (events : list Event) :
  existsb ends events = true ->
  exists calls stream text code,
    main None events
    = (map Terminal (Init :: calls ++ [Close])
         ++ [Write stream text; Exit code])%list
    /\ releases calls = 0%nat.
Proof.
  intros Hends. rewrite main_unfold.
  pose proof (releases_loop "Enter PIN:" events initial) as Hrel.
  destruct (session_outcome_cases "Enter PIN:" events)
    as [[_ Hb] | Hout]; [congruence|].
  assert (Hd : deferred (snd (GetPIN "Enter PIN:" None events)) = [Close])
    by (destruct Hout as [-> | (s & _ & ->)]; reflexivity).
  assert (Hfst : fst (GetPIN "Enter PIN:" None events)
                 = (Init :: fst (loop "Enter PIN:" initial events)
                      ++ [Close])%list).
  { rewrite GetPIN_outcome in Hd. unfold GetPIN.
    destruct (loop "Enter PIN:" initial events) as [calls out].
    cbn [fst snd] in *. now rewrite Hd. }
  rewrite Hfst.
  exists (fst (loop "Enter PIN:" initial events)).
  destruct Hout as [-> | (s & _ & ->)]; cbn [afterGetPIN];
    do 3 eexists; (split; [reflexivity | exact Hrel]).
Qed.

Lemma main_prints_after_release_witness :
  exists calls stream text code,
    main None [press KeySpace; press KeyEnter]
    = (map Terminal (Init :: calls ++ [Close])
         ++ [Write stream text; Exit code])%list
    /\ releases calls = 0%nat.
Proof.
  apply (main_prints_after_release [press KeySpace; press KeyEnter]).
  reflexivity.
Defined.
